(** * Puzzle: longest chains of six-digit codes (src/main.cpp)

    A shallow embedding of [Graph], [LongestPath] and [print_path], and the
    properties the specification states about them; then
    [get_validated_choice], the reading loop of [main], and further
    properties read off the code.

    Conventions of the embedding:
    - [std::string] is [string]; [std::vector<T>] is [list T], [push_back]
      appends at the end;
    - [std::unordered_map<K,V>] is [gmap K V]; its iteration order is not
      fixed by the language, so every result about the search is stated for
      every order of the keys;
    - [int] is a 32-bit and [size_t] a 64-bit integer, both carried in [Z]
      with the conversions written out;
    - an exception ([std::out_of_range] of [substr]) is [None];
    - the recursion of [dfs] is driven by a fuel argument; [dfs_spec] and
      [searched_total] show that a fuel above the number of vertices
      suffices, [dfs_fuel_mono] that the answer does not depend on it. *)

From Stdlib Require Import ZArith Ascii String List Lia.
From stdpp Require Import base option list gmap strings fin_maps.

Local Open Scope Z_scope.

(** ** Machine integers *)

Module Int.

Definition size_modulus : Z := 2 ^ 64.
Definition int_modulus : Z := 2 ^ 32.
Definition int_max : Z := 2 ^ 31 - 1.

(** Conversion of a value to [size_t] (unsigned, 64 bits). *)
Definition to_size_t (z : Z) : Z := z mod size_modulus.

(** Conversion of a value to [int] (signed, 32 bits, two's complement). *)
Definition to_int (z : Z) : Z :=
  (z + 2 ^ 31) mod int_modulus - 2 ^ 31.

(** [std::string::npos] *)
Definition npos : Z := size_modulus - 1.

End Int.

(** ** Loops that can throw *)

(** A range-based [for] whose body may fail to return ([None]): the state
    is threaded from one element to the next and the first failure ends the
    loop. *)
Fixpoint for_each {A S : Type} (body : A → S → option S) (l : list A) (s : S)
  : option S :=
  match l with
  | [] => Some s
  | x :: l' => s' ← body x s; for_each body l' s'
  end.

(** ** Strings *)

(** [s.size()] *)
Definition size (s : string) : Z := Z.of_nat (String.length s).

(** [s.substr(pos, len)]: throws when [pos > size()], otherwise the
    characters from [pos], at most [len] of them. *)
Definition substr (s : string) (pos len : Z) : option string :=
  if pos <=? size s
  then Some (String.substring (Z.to_nat pos) (Z.to_nat (Z.min len (size s - pos))) s)
  else None.

(** [std::endl] as written to the stream. *)
Definition endl : string := String (ascii_of_nat 10) EmptyString.

(** The leading and trailing characters the specification speaks of. *)
Definition first2 (s : string) : string := String.substring 0 2 s.
Definition first4 (s : string) : string := String.substring 0 4 s.
Definition last2 (s : string) : string :=
  String.substring (String.length s - 2) 2 s.

(** [regex valid_num("^\\d{6}$")] with [regex_match]: exactly six decimal
    digits. *)
Definition is_digit (c : ascii) : bool :=
  let n := nat_of_ascii c in (48 <=? n)%nat && (n <=? 57)%nat.

Fixpoint all_digits (s : string) : bool :=
  match s with
  | EmptyString => true
  | String c s' => is_digit c && all_digits s'
  end.

Definition valid_num (s : string) : bool :=
  (String.length s =? 6)%nat && all_digits s.

(** ** Graph *)

Record Graph := mkGraph { adj_list : gmap string (list string) }.

Definition Graph_new : Graph := mkGraph ∅.

(** [adj_list[from].push_back(to)]: [operator[]] creates an empty vector
    for a key that is absent. *)
Definition add_edge (from to : string) (g : Graph) : Graph :=
  mkGraph (<[from := default [] (adj_list g !! from) ++ [to]]> (adj_list g)).

(** The body of the inner loop of [build_graph]. *)
Definition build_inner (from key to : string) (g : Graph) : option Graph :=
  if decide (from ≠ to)
  then p ← substr to 0 2;
       Some (if decide (key = p) then add_edge from to g else g)
  else Some g.

(** The body of the outer loop: [key] is computed with [size_t]
    arithmetic, so a string shorter than two characters makes [substr]
    throw. *)
Definition build_outer (numbers : list string) (from : string) (g : Graph)
  : option Graph :=
  key ← substr from (Int.to_size_t (size from - 2)) Int.npos;
  for_each (build_inner from key) numbers g.

Definition build_graph (numbers : list string) (g : Graph) : option Graph :=
  for_each (build_outer numbers) numbers g.

Definition get_neighbors (g : Graph) (vertex : string) : list string :=
  match adj_list g !! vertex with
  | Some l => l
  | None => []
  end.

(** [get_vertices] walks the hash table; [get_vertices] below is one such
    walk, [vertex_order] holds of every list a walk can return. *)
Definition get_vertices (g : Graph) : list string :=
  (map_to_list (adj_list g)).*1.

Definition vertex_order (g : Graph) (vertices : list string) : Prop :=
  vertices ≡ₚ get_vertices g.

(** ** LongestPath *)

Record LongestPath := mkLongestPath {
  current_path : list string;
  longest_paths : list (list string);
  visited : gmap string bool;
  max_length : Z
}.

Definition LongestPath_new : LongestPath := mkLongestPath [] [] ∅ 0.

(** [v.size()] of a vector. *)
Definition vsize {A : Type} (v : list A) : Z := Z.of_nat (length v).

(** [visited[k] = b] *)
Definition visited_set (k : string) (b : bool) (lp : LongestPath) : LongestPath :=
  mkLongestPath (current_path lp) (longest_paths lp)
                (<[k := b]> (visited lp)) (max_length lp).

(** Reading [visited[k]]: [operator[]] enters [false] for an absent key. *)
Definition visited_get (k : string) (lp : LongestPath) : bool * LongestPath :=
  match visited lp !! k with
  | Some b => (b, lp)
  | None => (false, visited_set k false lp)
  end.

(** [current_path.push_back(v)] and [current_path.pop_back()] *)
Definition path_push (v : string) (lp : LongestPath) : LongestPath :=
  mkLongestPath (current_path lp ++ [v]) (longest_paths lp)
                (visited lp) (max_length lp).

Definition path_pop (lp : LongestPath) : LongestPath :=
  mkLongestPath (removelast (current_path lp)) (longest_paths lp)
                (visited lp) (max_length lp).

(** The two branches that follow the push in [dfs]. Both comparisons are
    between a [size_t] and an [int], so [max_length] is converted to
    [size_t]; the assignment converts the size to [int]. *)
Definition update_longest (lp : LongestPath) : LongestPath :=
  let n := vsize (current_path lp) in
  if Int.to_size_t (max_length lp) <? n
  then mkLongestPath (current_path lp) [current_path lp]
                     (visited lp) (Int.to_int n)
  else if n =? Int.to_size_t (max_length lp)
  then mkLongestPath (current_path lp) (longest_paths lp ++ [current_path lp])
                     (visited lp) (max_length lp)
  else lp.

(** The body of the loop over the neighbours: [if (!visited[neighbor])
    dfs(neighbor, graph);] with [call] the recursive call. *)
Definition dfs_neighbor (call : string → LongestPath → option LongestPath)
    (neighbor : string) (lp : LongestPath) : option LongestPath :=
  let '(marked, lp) := visited_get neighbor lp in
  if negb marked then call neighbor lp else Some lp.

(** [dfs]; [None] when the fuel runs out. *)
Fixpoint dfs (fuel : nat) (graph : Graph) (current : string) (lp : LongestPath)
  : option LongestPath :=
  match fuel with
  | O => None
  | S fuel' =>
    let lp := visited_set current true lp in
    let lp := path_push current lp in
    let lp := update_longest lp in
    lp ← for_each (dfs_neighbor (dfs fuel' graph))
                  (get_neighbors graph current) lp;
    let lp := visited_set current false lp in
    Some (path_pop lp)
  end.

(** [visited.clear(); current_path.clear();] *)
Definition clear_scratch (lp : LongestPath) : LongestPath :=
  mkLongestPath [] (longest_paths lp) ∅ (max_length lp).

(** The search loop of [find_longest_paths], over the vertices in the order
    [get_vertices] returned them. The progress thread and the messages
    touch no field of the object and are left out. *)
Definition find_longest_paths (fuel : nat) (vertices : list string)
    (graph : Graph) (lp : LongestPath) : option LongestPath :=
  for_each (λ vertex lp, dfs fuel graph vertex (clear_scratch lp)) vertices lp.

Definition get_all_longest_paths (lp : LongestPath) : list (list string) :=
  longest_paths lp.

Definition get_max_length (lp : LongestPath) : Z := max_length lp.

(** [searched graph lp] : a call of [find_longest_paths(graph)] on a fresh
    object returns and leaves the object in state [lp]. *)
Definition searched (graph : Graph) (lp : LongestPath) : Prop :=
  ∃ vertices fuel,
    vertex_order graph vertices ∧
    find_longest_paths fuel vertices graph LongestPath_new = Some lp.

(** ** print_path *)

(** The body of the loop of [print_path] at index [i]; [out] is the text
    written so far. *)
Definition print_body (path : list string) (i : nat) (out : string)
  : option string :=
  v ← path !! i;
  a ← substr v 0 2;
  b ← substr v 2 2;
  Some ((out +:+ a) +:+ b).

(** The text [print_path] writes to [cout]; [None] when a [substr] throws.
    The loop runs over the indices [1 .. size-1]. *)
Definition print_path (path : list string) : option string :=
  match path with
  | [] => Some EmptyString
  | v0 :: _ =>
    out ← substr v0 0 4;
    out ← for_each (print_body path) (seq 1 (length path - 1)) out;
    v ← last path;
    t ← substr v 4 2;
    Some ((out +:+ t) +:+ endl)
  end.

(** ** get_validated_choice *)

(** The console: the characters [cin] has left to give and the text
    written to [cout]. *)
Record console := mkConsole { cin : list ascii; cout : string }.

(** [isspace] and [toupper] in the "C" locale. *)
Definition isspace (c : ascii) : bool :=
  let n := nat_of_ascii c in
  (n =? 32)%nat || ((9 <=? n)%nat && (n <=? 13)%nat).

Definition toupper (c : ascii) : ascii :=
  let n := nat_of_ascii c in
  if (97 <=? n)%nat && (n <=? 122)%nat then ascii_of_nat (n - 32) else c.

(** [cin >> choice] for a [char]: white space is skipped and the next
    character is taken; [None] when the stream ends first. *)
Fixpoint extract_char (input : list ascii) : option (ascii * list ascii) :=
  match input with
  | [] => None
  | c :: rest => if isspace c then extract_char rest else Some (c, rest)
  end.

(** The test that ends the loop, on the character [toupper] returned. *)
Definition is_choice (c : ascii) : bool :=
  Ascii.eqb c "Y" || Ascii.eqb c "N" || Ascii.eqb c "y" || Ascii.eqb c "n".

Definition invalid_input : string :=
  "Invalid input. Please enter 'y' or 'n': ".

(** [get_validated_choice]: the character returned and the console after
    the call. [None] when the call does not return a choice: the fuel ran
    out, or the stream ended, in which case the extraction fails, [choice]
    stays as it was and the loop cannot end. *)
Fixpoint get_validated_choice (fuel : nat) (prompt : string) (io : console)
  : option (ascii * console) :=
  match fuel with
  | O => None
  | S fuel' =>
    let out := cout io +:+ prompt in
    match extract_char (cin io) with
    | None => None
    | Some (c, rest) =>
      let choice := toupper c in
      if is_choice choice
      then Some (choice, mkConsole rest out)
      else get_validated_choice fuel' prompt
             (mkConsole rest (out +:+ invalid_input))
    end
  end.

(** ** main: reading the codes *)

(** The loop that reads the file: [tokens] are the words [fin >> temp]
    yields, in order; the words [valid_num] matches are kept. *)
Definition read_numbers (tokens : list string) : list string :=
  foldl (λ numbers temp,
           if valid_num temp then numbers ++ [temp] else numbers)
        [] tokens.

Local Close Scope Z_scope.

(** * Vocabulary of the proofs *)

(** ** The state of the search *)

(** Whether a key is marked; an absent key and a key entered as [false]
    read the same. *)
Definition seen (lp : LongestPath) (k : string) : bool :=
  default false (visited lp !! k).

(** The result fields of the object. *)
Definition best (lp : LongestPath) : Z * list (list string) :=
  (max_length lp, longest_paths lp).

(** [update_longest] seen from the result fields alone. *)
Definition note_path (p : list string) (r : Z * list (list string))
  : Z * list (list string) :=
  if (Int.to_size_t r.1 <? vsize p)%Z then (Int.to_int (vsize p), [p])
  else if (vsize p =? Int.to_size_t r.1)%Z then (r.1, r.2 ++ [p])
  else r.

(** The result fields after the paths of [tr] were noted in order. *)
Definition note_paths (tr : list (list string)) (r : Z * list (list string))
  : Z * list (list string) :=
  foldl (λ r p, note_path p r) r tr.

(** [chain g p]: each vertex of [p] is a neighbour of the one before. *)
Fixpoint chain (g : Graph) (p : list string) : Prop :=
  match p with
  | a :: (b :: _) as t => b ∈ get_neighbors g a ∧ chain g t
  | _ => True
  end.

(** [extends g V cp current p]: [p] is the path buffer [cp] followed by a
    simple chain of unmarked vertices that starts at [current]. *)
Definition extends (g : Graph) (V : string → bool) (cp : list string)
    (current : string) (p : list string) : Prop :=
  ∃ q, p = cp ++ current :: q ∧
       chain g (current :: q) ∧
       NoDup (current :: q) ∧
       ∀ x, x ∈ current :: q → V x = false.

(** How many vertices of [U] are not marked: the measure of [dfs]. *)
Definition unseen_count (V : string → bool) (U : list string) : nat :=
  length (filter (λ u, V u = false) U).

(** No neighbour list names a vertex twice. *)
Definition simple_graph (g : Graph) : Prop := ∀ u, NoDup (get_neighbors g u).

(** [explores g V cp P lp res]: the computation [res], started in [lp],
    returns; it leaves the path buffer [cp] and the marks [V] as they
    were, and the result fields are those of [lp] after the paths of
    some list [tr] were noted one by one, each of them satisfying [P]. *)
Definition explores (g : Graph) (V : string → bool) (cp : list string)
    (P : list string → Prop) (lp : LongestPath)
    (res : option LongestPath) : Prop :=
  ∃ tr lp',
    res = Some lp' ∧
    current_path lp' = cp ∧
    (∀ k, seen lp' k = V k) ∧
    best lp' = note_paths tr (best lp) ∧
    Forall P tr ∧
    (simple_graph g → NoDup tr).

(** The invariant that ties the collection to [max_length]. *)
Definition consistent (r : Z * list (list string)) : Prop :=
  (0 ≤ r.1 ≤ Int.int_max)%Z ∧ ∀ p, p ∈ r.2 → vsize p = r.1.

(** ** The table of the graph *)

(** Every string the table mentions, keys first. *)
Definition nodes (g : Graph) : list string :=
  get_vertices g ++ mjoin (map_to_list (adj_list g)).*2.

(** The [key] of the outer loop. *)
Definition suffix_key (from : string) : option string :=
  substr from (Int.to_size_t (size from - 2)) Int.npos.

(** The test of the inner loop. *)
Definition links (from key to : string) : Prop := from ≠ to ∧ key = first2 to.

Global Instance links_dec from key to : Decision (links from key to).
Proof. unfold links. apply _. Defined.

(** A table in which no key holds an empty vector. *)
Definition tidy (g : Graph) : Prop :=
  ∀ u l, adj_list g !! u = Some l → l ≠ [].

(** The edges out of [u] that the outer loop adds while it runs over
    [froms]: one batch for each occurrence of [u]. *)
Definition out_edges (numbers froms : list string) (u : string) : list string :=
  froms ≫= λ from,
    if decide (u = from)
    then match suffix_key from with
         | Some key => filter (links from key) numbers
         | None => []
         end
    else [].

(** ** Codes and texts *)

(** The characters [0] to [9]. *)
Definition digits : list ascii := ascii_of_nat <$> seq 48 10.

(** All strings of [n] decimal digits. *)
Fixpoint digit_strings (n : nat) : list string :=
  match n with
  | O => [EmptyString]
  | S n' => digit_strings n' ≫= λ s, (λ c, String c s) <$> digits
  end.

(** Two inputs worked out below: a fork, and a code that occurs twice. *)
Definition fork_input : list string :=
  ["111122"%string; "221111"%string; "221133"%string].

Definition repeated_input : list string :=
  ["123456"%string; "567890"%string; "567890"%string].

(** The graph of the fork input, written out. *)
Definition fork_graph : Graph :=
  mkGraph (<["111122"%string := ["221111"%string; "221133"%string]]>
             (<["221111"%string := ["111122"%string]]> ∅)).

(** Follows the specification's words: the reconstruction of a path is
    [first4 v0 ++ first4 v1 ++ ... ++ first4 vk ++ last2 vk]. *)
Fixpoint reconstruction (path : list string) : string :=
  match path with
  | [] => EmptyString
  | [vk] => first4 vk +:+ last2 vk
  | v :: rest => first4 v +:+ reconstruction rest
  end.

(** The four leading characters of each code, one after the other. *)
Fixpoint heads (path : list string) : string :=
  match path with
  | [] => EmptyString
  | v :: rest => first4 v +:+ heads rest
  end.

(** ** The whole of what the search visits *)

(** [rooted g p]: [p] is a simple chain of [g] that starts at a key of the
    table. *)
Definition rooted (g : Graph) (p : list string) : Prop :=
  ∃ v q, p = v :: q ∧ v ∈ get_vertices g ∧ chain g p ∧ NoDup p.

(** As [explores], with [tr] holding exactly the paths that satisfy [P]. *)
Definition explores_all (g : Graph) (V : string → bool) (cp : list string)
    (P : list string → Prop) (lp : LongestPath)
    (res : option LongestPath) : Prop :=
  ∃ tr lp',
    res = Some lp' ∧
    current_path lp' = cp ∧
    (∀ k, seen lp' k = V k) ∧
    best lp' = note_paths tr (best lp) ∧
    (∀ p, p ∈ tr ↔ P p) ∧
    (simple_graph g → NoDup tr).

(** The greatest size among the paths of [tr], and the paths of a size. *)
Fixpoint longest (tr : list (list string)) : Z :=
  match tr with
  | [] => 0%Z
  | p :: tr' => Z.max (vsize p) (longest tr')
  end.

Definition ties (m : Z) (tr : list (list string)) : list (list string) :=
  filter (λ p, vsize p = m) tr.

(** [overlaps p]: in [p] the last two characters of each code are the first
    two of the next one. *)
Definition overlaps (p : list string) : Prop :=
  ∀ i a b, p !! i = Some a → p !! S i = Some b → last2 a = first2 b.

(** [times k s]: the text [s] written [k] times. *)
Fixpoint times (k : nat) (s : string) : string :=
  match k with
  | O => EmptyString
  | S k' => s +:+ times k' s
  end.

(** * Properties *)

(** ** Loops *)

Section for_each.
Context {A S : Type}.
Implicit Types (body : A → S → option S) (l : list A) (s : S).

Lemma for_each_cons body x l s :
  for_each body (x :: l) s = body x s ≫= for_each body l.
Proof. reflexivity. Qed.

Lemma for_each_app body l1 l2 s :
  for_each body (l1 ++ l2) s = for_each body l1 s ≫= for_each body l2.
Proof.
  revert s. induction l1 as [|x l1 IH]; intros s; simpl; [done|].
  destruct (body x s) as [s1|]; simpl; [apply IH|done].
Qed.

(** A loop whose body returns wherever another one does returns the same
    state. *)
Lemma for_each_weaken body1 body2 l s s' :
  (∀ x t t', x ∈ l → body1 x t = Some t' → body2 x t = Some t') →
  for_each body1 l s = Some s' → for_each body2 l s = Some s'.
Proof.
  revert s. induction l as [|x l IH]; intros s Hb; simpl; [done|].
  destruct (body1 x s) as [s1|] eqn:E1; simpl; [|done].
  rewrite (Hb x s s1) by (done || left). simpl.
  apply IH. intros y t t' Hy. apply Hb. by right.
Qed.
End for_each.

(** ** The fuel of [dfs] *)

Lemma dfs_fuel_mono n m g current lp lp' :
  n ≤ m → dfs n g current lp = Some lp' → dfs m g current lp = Some lp'.
Proof.
  revert m current lp lp'.
  induction n as [|n IH]; intros m current lp lp' Hle; [done|].
  destruct m as [|m]; [lia|]. simpl.
  match goal with
  | |- (?loop ≫= _) = _ → _ => destruct loop as [lp1|] eqn:E; [|done]
  end.
  simpl. intros <-.
  erewrite for_each_weaken; [reflexivity| |exact E].
  intros x t t' _. unfold dfs_neighbor.
  destruct (visited_get x t) as [b t0]. destruct b; simpl; [done|].
  apply IH. lia.
Qed.

Lemma find_longest_paths_fuel_mono n m vs g lp lp' :
  n ≤ m →
  find_longest_paths n vs g lp = Some lp' →
  find_longest_paths m vs g lp = Some lp'.
Proof.
  intros Hle. unfold find_longest_paths. apply for_each_weaken.
  intros x t t' _. by apply dfs_fuel_mono.
Qed.

(** Two runs over the same vertex order agree, whatever their fuel. *)
Lemma find_longest_paths_det n m vs g lp lp1 lp2 :
  find_longest_paths n vs g lp = Some lp1 →
  find_longest_paths m vs g lp = Some lp2 →
  lp1 = lp2.
Proof.
  intros H1 H2.
  apply (find_longest_paths_fuel_mono n (n `max` m)) in H1; [|lia].
  apply (find_longest_paths_fuel_mono m (n `max` m)) in H2; [|lia].
  congruence.
Qed.

(** ** The scratch state of the search *)

Lemma note_paths_app tr1 tr2 r :
  note_paths (tr1 ++ tr2) r = note_paths tr2 (note_paths tr1 r).
Proof. apply foldl_app. Qed.

Lemma seen_visited_set k b lp k' :
  seen (visited_set k b lp) k' = if decide (k = k') then b else seen lp k'.
Proof.
  unfold seen, visited_set. simpl. rewrite lookup_insert.
  by case_decide.
Qed.

Lemma visited_get_spec k lp :
  ∃ lp', visited_get k lp = (seen lp k, lp') ∧
         current_path lp' = current_path lp ∧
         best lp' = best lp ∧
         ∀ k', seen lp' k' = seen lp k'.
Proof.
  unfold visited_get, seen.
  destruct (visited lp !! k) as [b|] eqn:E.
  - exists lp. by rewrite ?E.
  - exists (visited_set k false lp). split_and!; try done.
    intros k'. fold (seen (visited_set k false lp) k').
    rewrite seen_visited_set. case_decide; [subst; by rewrite E|done].
Qed.

Lemma dfs_neighbor_spec call k lp :
  ∃ lp', dfs_neighbor call k lp = (if seen lp k then Some lp' else call k lp') ∧
         current_path lp' = current_path lp ∧
         best lp' = best lp ∧
         ∀ k', seen lp' k' = seen lp k'.
Proof.
  destruct (visited_get_spec k lp) as (lp' & Hget & ?).
  exists lp'. split; [|done].
  unfold dfs_neighbor. rewrite Hget. by destruct (seen lp k).
Qed.

Lemma update_longest_spec lp :
  current_path (update_longest lp) = current_path lp ∧
  visited (update_longest lp) = visited lp ∧
  best (update_longest lp) = note_path (current_path lp) (best lp).
Proof.
  unfold update_longest, note_path, best. simpl.
  destruct (_ <? _)%Z; [done|]. by destruct (_ =? _)%Z.
Qed.

(** ** What one exploration records *)

Lemma unseen_count_le V V' U :
  (∀ u, V u = true → V' u = true) → unseen_count V' U ≤ unseen_count V U.
Proof.
  intros Hm. unfold unseen_count.
  induction U as [|a U IH]; [reflexivity|].
  rewrite !filter_cons.
  destruct (decide (V' a = false)) as [Ha'|Ha'];
    destruct (decide (V a = false)) as [Ha|Ha]; simpl; try lia.
  apply not_false_iff_true, Hm in Ha. congruence.
Qed.

Lemma unseen_count_lt V V' U x :
  (∀ u, V u = true → V' u = true) →
  x ∈ U → V x = false → V' x = true →
  unseen_count V' U < unseen_count V U.
Proof.
  intros Hm Hx Hf Ht.
  induction U as [|a U IH]; [by apply elem_of_nil in Hx|].
  pose proof (unseen_count_le V V' U Hm) as Hle.
  unfold unseen_count in *. rewrite !filter_cons.
  apply elem_of_cons in Hx as [<-|Hx].
  - destruct (decide (V' x = false)); [congruence|].
    destruct (decide (V x = false)); [simpl; lia|done].
  - specialize (IH Hx).
    destruct (decide (V' a = false)) as [Ha'|Ha'];
      destruct (decide (V a = false)) as [Ha|Ha]; simpl; try lia.
    apply not_false_iff_true, Hm in Ha. congruence.
Qed.

Lemma unseen_count_length V U : unseen_count V U ≤ length U.
Proof. apply length_filter. Qed.

Section exploration.
Variable g : Graph.
(** A list that holds every vertex the search can reach. *)
Variable U : list string.
Hypothesis U_closed : ∀ u v, v ∈ get_neighbors g u → v ∈ U.

Lemma neighbors_loop call V cp :
  (∀ n s, n ∈ U → V n = false →
          current_path s = cp → (∀ k, seen s k = V k) →
          explores g V cp (extends g V cp n) s (call n s)) →
  ∀ ns s,
    (∀ n, n ∈ ns → n ∈ U) → (simple_graph g → NoDup ns) →
    current_path s = cp → (∀ k, seen s k = V k) →
    explores g V cp (λ p, ∃ n, n ∈ ns ∧ extends g V cp n p) s
             (for_each (dfs_neighbor call) ns s).
Proof.
  intros Hcall ns.
  induction ns as [|n ns IH]; intros s HU Hnd Hcp HV.
  - exists [], s. split_and!; try done. intros _. constructor.
  - rewrite for_each_cons.
    destruct (dfs_neighbor_spec call n s) as (s1 & -> & Hcp1 & Hb1 & HV1).
    assert (HU' : ∀ m, m ∈ ns → m ∈ U) by (intros m Hm; apply HU; by right).
    assert (Hnd' : simple_graph g → NoDup ns).
    { intros Hs. specialize (Hnd Hs). by apply NoDup_cons in Hnd as [_ ?]. }
    assert (Hcp1' : current_path s1 = cp) by congruence.
    assert (HV1' : ∀ k, seen s1 k = V k) by (intros k; by rewrite HV1).
    destruct (seen s n) eqn:Hn; simpl.
    + destruct (IH s1 HU' Hnd' Hcp1' HV1')
        as (tr & s' & Hr & Hcp' & HV' & Hb' & HP & Hnd'').
      exists tr, s'. split_and!; try done.
      * by rewrite Hb', Hb1.
      * eapply Forall_impl; [exact HP|].
        intros p (m & Hm & Hp). exists m. split; [by right|done].
    + assert (Hn' : V n = false) by (by rewrite <- HV).
      destruct (Hcall n s1 (HU n ltac:(left)) Hn' Hcp1' HV1')
        as (tr1 & s2 & -> & Hcp2 & HV2 & Hb2 & HP1 & Hnd1).
      simpl.
      destruct (IH s2 HU' Hnd' Hcp2 HV2)
        as (tr2 & s' & Hr & Hcp' & HV' & Hb' & HP2 & Hnd2).
      exists (tr1 ++ tr2), s'. split_and!; try done.
      * by rewrite note_paths_app, Hb', Hb2, Hb1.
      * apply Forall_app. split.
        -- eapply Forall_impl; [exact HP1|].
           intros p Hp. exists n. split; [left|done].
        -- eapply Forall_impl; [exact HP2|].
           intros p (m & Hm & Hp). exists m. split; [by right|done].
      * intros Hs. apply NoDup_app. split_and!; [by apply Hnd1| |by apply Hnd2].
        intros p Hp1 Hp2.
        rewrite Forall_forall in HP1, HP2.
        destruct (HP1 p Hp1) as (q1 & Hq1 & _).
        destruct (HP2 p Hp2) as (m & Hm & q2 & Hq2 & _).
        rewrite Hq1 in Hq2. apply app_inv_head in Hq2.
        injection Hq2 as -> _.
        specialize (Hnd Hs). by apply NoDup_cons in Hnd as [? _].
Qed.

Lemma dfs_spec fuel :
  ∀ V cp current lp,
    current_path lp = cp → (∀ k, seen lp k = V k) →
    unseen_count V U < fuel → current ∈ U → V current = false →
    explores g V cp (extends g V cp current) lp (dfs fuel g current lp).
Proof.
  induction fuel as [|fuel IH]; intros V cp current lp Hcp HV Hfuel HcU Hc;
    [lia|].
  set (V1 := λ k, if decide (current = k) then true else V k).
  set (lp0 := path_push current (visited_set current true lp)).
  destruct (update_longest_spec lp0) as (Hp1 & Hv1 & Hb1).
  assert (Hcp1 : current_path (update_longest lp0) = cp ++ [current]).
  { rewrite Hp1. simpl. by rewrite Hcp. }
  assert (HV1 : ∀ k, seen (update_longest lp0) k = V1 k).
  { intros k. unfold seen. rewrite Hv1.
    change (seen (visited_set current true lp) k = V1 k).
    rewrite seen_visited_set. unfold V1. case_decide; [done|apply HV]. }
  assert (Hfuel1 : unseen_count V1 U < fuel).
  { assert (unseen_count V1 U < unseen_count V U); [|lia].
    apply (unseen_count_lt V V1 U current); try done.
    - intros u Hu. unfold V1. by case_decide.
    - unfold V1. by rewrite decide_True. }
  destruct (neighbors_loop (dfs fuel g) V1 (cp ++ [current])
              (λ n s HnU Hn Hs1 Hs2, IH V1 _ n s Hs1 Hs2 Hfuel1 HnU Hn)
              (get_neighbors g current) (update_longest lp0)
              (λ n Hn, U_closed current n Hn) (λ Hs, Hs current) Hcp1 HV1)
    as (tr & s' & Hr & Hcp' & HV' & Hb' & HP & Hnd).
  exists ((cp ++ [current]) :: tr), (path_pop (visited_set current false s')).
  split_and!.
  - simpl. fold lp0. by rewrite Hr.
  - simpl. rewrite Hcp'. apply removelast_last.
  - intros k. change (seen (visited_set current false s') k = V k).
    rewrite seen_visited_set. case_decide as Hk; [by subst|].
    rewrite HV'. unfold V1. by rewrite decide_False.
  - change (best s' = note_paths tr (note_path (cp ++ [current]) (best lp))).
    rewrite Hb', Hb1. subst lp0. simpl. by rewrite Hcp.
  - constructor.
    + exists []. split_and!; [done|done|apply NoDup_singleton|].
      intros x Hx. apply list_elem_of_singleton in Hx. by subst.
    + eapply Forall_impl; [exact HP|].
      intros p (n & Hn & q & Hq & Hch & Hsimple & Hun).
      exists (n :: q). split_and!.
      * by rewrite Hq, <- app_assoc.
      * split; done.
      * apply NoDup_cons. split; [|done].
        intros Hin. specialize (Hun current Hin).
        unfold V1 in Hun. by rewrite decide_True in Hun.
      * intros x Hx. apply elem_of_cons in Hx as [->|Hx]; [done|].
        specialize (Hun x Hx). unfold V1 in Hun. by case_decide.
  - intros Hs. apply NoDup_cons. split; [|by apply Hnd].
    intros Hin. rewrite Forall_forall in HP.
    destruct (HP _ Hin) as (n & _ & q & Hq & _).
    apply (f_equal length) in Hq. rewrite !length_app in Hq.
    simpl in Hq. lia.
Qed.

Lemma find_longest_paths_spec fuel :
  length U < fuel →
  ∀ vs lp,
    (∀ v, v ∈ vs → v ∈ U) →
    ∃ tr lp',
      find_longest_paths fuel vs g lp = Some lp' ∧
      best lp' = note_paths tr (best lp) ∧
      Forall (λ p, ∃ v, v ∈ vs ∧ extends g (λ _, false) [] v p) tr ∧
      (simple_graph g → NoDup vs → NoDup tr).
Proof.
  intros Hfuel vs. unfold find_longest_paths.
  induction vs as [|v vs IH]; intros lp HU.
  - exists [], lp. split_and!; try done. intros _ _. constructor.
  - rewrite for_each_cons.
    destruct (dfs_spec fuel (λ _, false) [] v (clear_scratch lp))
      as (tr1 & lp1 & -> & _ & _ & Hb1 & HP1 & Hnd1); try done.
    { pose proof (unseen_count_length (λ _, false) U). lia. }
    { apply HU. left. }
    simpl.
    destruct (IH lp1) as (tr2 & lp' & Hr & Hb' & HP2 & Hnd2).
    { intros w Hw. apply HU. by right. }
    exists (tr1 ++ tr2), lp'. split_and!; try done.
    + by rewrite note_paths_app, Hb', Hb1.
    + apply Forall_app. split.
      * eapply Forall_impl; [exact HP1|].
        intros p Hp. exists v. split; [left|done].
      * eapply Forall_impl; [exact HP2|].
        intros p (w & Hw & Hp). exists w. split; [by right|done].
    + intros Hs Hvs. apply NoDup_cons in Hvs as [Hv Hvs].
      apply NoDup_app. split_and!; [by apply Hnd1| |by apply Hnd2].
      intros p Hp1 Hp2. rewrite Forall_forall in HP1, HP2.
      destruct (HP1 p Hp1) as (q1 & Hq1 & _).
      destruct (HP2 p Hp2) as (w & Hw & q2 & Hq2 & _).
      simpl in Hq1, Hq2. congruence.
Qed.
End exploration.

(** ** The search on an arbitrary graph *)

Lemma get_vertices_elem g v :
  v ∈ get_vertices g ↔ is_Some (adj_list g !! v).
Proof.
  unfold get_vertices. rewrite list_elem_of_fmap. split.
  - intros ([k l] & -> & Hkl). apply elem_of_map_to_list in Hkl. by exists l.
  - intros [l Hl]. exists (v, l). split; [done|]. by apply elem_of_map_to_list.
Qed.

Lemma get_vertices_NoDup g : NoDup (get_vertices g).
Proof. apply NoDup_fst_map_to_list. Qed.

Lemma nodes_closed g u v : v ∈ get_neighbors g u → v ∈ nodes g.
Proof.
  unfold get_neighbors, nodes.
  destruct (adj_list g !! u) as [l|] eqn:E; [|by intros ?%elem_of_nil].
  intros Hv. apply elem_of_app. right.
  apply list_elem_of_join. exists l. split; [done|].
  apply list_elem_of_fmap. exists (u, l). split; [done|].
  by apply elem_of_map_to_list.
Qed.

(** The search returns, whatever the graph and the order of its keys. *)
Lemma searched_total g : ∃ lp, searched g lp.
Proof.
  destruct (find_longest_paths_spec g (nodes g) (nodes_closed g)
              (S (length (nodes g))) ltac:(lia) (get_vertices g) LongestPath_new)
    as (tr & lp & Hr & _).
  { intros v Hv. apply elem_of_app. by left. }
  exists lp, (get_vertices g), (S (length (nodes g))). split; [|done].
  unfold vertex_order. done.
Qed.

(** What the search leaves in the result fields: the paths of a list [tr]
    noted one by one, each a simple chain that starts at a key of the
    table; [tr] has no repetition when no neighbour list has one. *)
Lemma searched_spec g lp :
  searched g lp →
  ∃ tr,
    best lp = note_paths tr (0%Z, []) ∧
    Forall (λ p, ∃ v, v ∈ get_vertices g ∧
                      extends g (λ _, false) [] v p) tr ∧
    ((∀ u, NoDup (get_neighbors g u)) → NoDup tr).
Proof.
  intros (vs & fuel & Hvs & Hrun). unfold vertex_order in Hvs.
  destruct (find_longest_paths_spec g (nodes g) (nodes_closed g)
              (S (length (nodes g))) ltac:(lia) vs LongestPath_new)
    as (tr & lp' & Hr & Hb & HP & Hnd).
  { intros v Hv. apply elem_of_app. left. by rewrite <- Hvs. }
  assert (lp' = lp) as -> by (eapply find_longest_paths_det; eauto).
  exists tr. split_and!; [done| |].
  - eapply Forall_impl; [exact HP|].
    intros p (v & Hv & Hp). exists v. split; [by rewrite <- Hvs|done].
  - intros Hs. apply Hnd; [done|]. rewrite Hvs. apply get_vertices_NoDup.
Qed.

(** ** The result fields after a list of paths was noted *)

Lemma note_path_sublist p r : (note_path p r).2 `sublist_of` r.2 ++ [p].
Proof.
  unfold note_path.
  destruct (_ <? _)%Z; simpl; [apply sublist_inserts_l; reflexivity|].
  destruct (_ =? _)%Z; simpl; [reflexivity|].
  apply sublist_inserts_r. reflexivity.
Qed.

(** The collection is drawn, in order, from what it held and what was
    noted. *)
Lemma note_paths_sublist tr r : (note_paths tr r).2 `sublist_of` r.2 ++ tr.
Proof.
  revert r. induction tr as [|p tr IH]; intros r; simpl.
  - by rewrite app_nil_r.
  - etrans; [apply IH|].
    change (p :: tr) with ([p] ++ tr). rewrite app_assoc.
    apply sublist_app; [apply note_path_sublist|reflexivity].
Qed.

Lemma note_paths_elem tr r p :
  p ∈ (note_paths tr r).2 → p ∈ r.2 ∨ p ∈ tr.
Proof.
  intros Hp. apply elem_of_app.
  eapply elem_of_sublist; [done|apply note_paths_sublist].
Qed.

Lemma to_size_t_small z : (0 ≤ z ≤ Int.int_max)%Z → Int.to_size_t z = z.
Proof.
  unfold Int.to_size_t, Int.size_modulus, Int.int_max. intros.
  apply Z.mod_small. lia.
Qed.

Lemma to_int_small z : (0 ≤ z ≤ Int.int_max)%Z → Int.to_int z = z.
Proof.
  unfold Int.to_int, Int.int_modulus, Int.int_max. intros.
  rewrite Z.mod_small; lia.
Qed.

Lemma note_path_consistent p r :
  (vsize p ≤ Int.int_max)%Z → consistent r → consistent (note_path p r).
Proof.
  intros Hp [Hm Hps]. unfold note_path.
  assert (0 ≤ vsize p)%Z by (unfold vsize; lia).
  rewrite to_size_t_small by done.
  destruct (_ <? _)%Z eqn:Hlt; [|destruct (_ =? _)%Z eqn:Heq]; split; simpl;
    try done.
  - rewrite to_int_small; lia.
  - intros q ->%list_elem_of_singleton. by rewrite to_int_small by lia.
  - intros q [Hq| ->%list_elem_of_singleton]%elem_of_app; [by apply Hps|lia].
Qed.

Lemma note_paths_consistent tr r :
  Forall (λ p, (vsize p ≤ Int.int_max)%Z) tr →
  consistent r → consistent (note_paths tr r).
Proof.
  revert r. induction tr as [|p tr IH]; intros r Htr Hr; simpl; [done|].
  apply Forall_cons in Htr as [Hp Htr].
  apply IH; [done|]. by apply note_path_consistent.
Qed.

(** ** The graph that [build_graph] builds *)

Lemma substring_0_min s n :
  String.substring 0 (n `min` String.length s) s = String.substring 0 n s.
Proof.
  revert n. induction s as [|c s IH]; intros [|n]; simpl; try done.
  by rewrite IH.
Qed.

Lemma substr_prefix s n :
  (0 ≤ n)%Z → substr s 0 n = Some (String.substring 0 (Z.to_nat n) s).
Proof.
  intros Hn. unfold substr, size.
  rewrite (proj2 (Z.leb_le _ _)) by lia.
  rewrite Z.sub_0_r, Z2Nat.inj_min, Nat2Z.id. simpl Z.to_nat at 1.
  by rewrite substring_0_min.
Qed.

Lemma suffix_key_six s : String.length s = 6 → suffix_key s = Some (last2 s).
Proof.
  destruct s as [|c1 [|c2 [|c3 [|c4 [|c5 [|c6 [|c7 s]]]]]]]; try done.
Qed.

Lemma get_neighbors_add_edge from to g u :
  get_neighbors (add_edge from to g) u =
  get_neighbors g u ++ (if decide (u = from) then [to] else []).
Proof.
  unfold get_neighbors, add_edge. simpl. rewrite lookup_insert.
  case_decide; case_decide; subst; try done.
  by rewrite app_nil_r.
Qed.

Lemma tidy_add_edge from to g : tidy g → tidy (add_edge from to g).
Proof.
  intros Hg u l. unfold add_edge. simpl. rewrite lookup_insert.
  case_decide; [|apply Hg].
  intros [= <-]. by destruct (default [] _).
Qed.

Lemma build_inner_spec from key to g :
  ∃ g', build_inner from key to g = Some g' ∧
        (tidy g → tidy g') ∧
        ∀ u, get_neighbors g' u =
             get_neighbors g u ++
             (if decide (u = from) then filter (links from key) [to] else []).
Proof.
  unfold build_inner.
  assert (Hnil : ∀ u, get_neighbors g u =
                      get_neighbors g u ++ (if decide (u = from) then [] else [])).
  { intros u. case_decide; by rewrite app_nil_r. }
  case_decide as Hne.
  - rewrite substr_prefix by lia. simpl. fold (first2 to).
    case_decide as Hk.
    + exists (add_edge from to g). split_and!; [done|apply tidy_add_edge|].
      intros u. rewrite get_neighbors_add_edge.
      rewrite filter_cons_True by done. done.
    + exists g. split_and!; try done.
      intros u. rewrite filter_cons_False by (by intros [_ ?]).
      rewrite filter_nil. apply Hnil.
  - exists g. split_and!; try done.
    intros u. rewrite filter_cons_False by (by intros [? _]).
    rewrite filter_nil. apply Hnil.
Qed.

Lemma build_inner_loop from key tos g :
  ∃ g', for_each (build_inner from key) tos g = Some g' ∧
        (tidy g → tidy g') ∧
        ∀ u, get_neighbors g' u =
             get_neighbors g u ++
             (if decide (u = from) then filter (links from key) tos else []).
Proof.
  revert g. induction tos as [|to tos IH]; intros g.
  - exists g. split_and!; try done. intros u. case_decide; by rewrite app_nil_r.
  - rewrite for_each_cons.
    destruct (build_inner_spec from key to g) as (g1 & -> & Ht1 & Hn1).
    destruct (IH g1) as (g' & Hr & Ht' & Hn'). simpl.
    exists g'. split_and!; [done|by auto|].
    intros u. rewrite Hn', Hn1, <- app_assoc. f_equal.
    case_decide; [|done].
    change (to :: tos) with ([to] ++ tos). by rewrite filter_app.
Qed.

Lemma build_outer_eq numbers from g :
  build_outer numbers from g =
  suffix_key from ≫= λ key, for_each (build_inner from key) numbers g.
Proof. reflexivity. Qed.

Lemma build_outer_loop numbers froms g g' :
  for_each (build_outer numbers) froms g = Some g' →
  (tidy g → tidy g') ∧
  ∀ u, get_neighbors g' u = get_neighbors g u ++ out_edges numbers froms u.
Proof.
  revert g. induction froms as [|from froms IH]; intros g.
  - intros [= <-]. split; [done|]. intros u. simpl. by rewrite app_nil_r.
  - rewrite for_each_cons, build_outer_eq.
    destruct (suffix_key from) as [key|] eqn:Hkey; simpl; [|done].
    destruct (build_inner_loop from key numbers g) as (g1 & -> & Ht1 & Hn1).
    simpl. intros Hr. destruct (IH g1 Hr) as [Ht' Hn'].
    split; [by auto|].
    intros u. rewrite Hn', Hn1, <- app_assoc. f_equal.
    unfold out_edges. simpl. rewrite Hkey. done.
Qed.

Lemma build_outer_total numbers froms g :
  Forall (λ s, is_Some (suffix_key s)) froms →
  is_Some (for_each (build_outer numbers) froms g).
Proof.
  revert g. induction froms as [|from froms IH]; intros g Hf; [by eexists|].
  apply Forall_cons in Hf as [[key Hkey] Hf].
  rewrite for_each_cons, build_outer_eq, Hkey. simpl.
  destruct (build_inner_loop from key numbers g) as (g1 & -> & _).
  simpl. by apply IH.
Qed.

(** [build_graph] returns on every sequence of six-character codes. *)
Lemma build_graph_total numbers g :
  Forall (λ s, String.length s = 6) numbers →
  is_Some (build_graph numbers g).
Proof.
  intros Hn. apply build_outer_total.
  eapply Forall_impl; [exact Hn|].
  intros s Hs. rewrite suffix_key_six by done. by eexists.
Qed.

Lemma out_edges_elem numbers froms u v :
  v ∈ out_edges numbers froms u ↔
  u ∈ froms ∧ v ∈ numbers ∧ u ≠ v ∧ suffix_key u = Some (first2 v).
Proof.
  unfold out_edges. rewrite list_elem_of_bind. split.
  - intros (from & Hv & Hfrom). case_decide; [subst from|by apply elem_of_nil in Hv].
    destruct (suffix_key u) as [key|]; [|by apply elem_of_nil in Hv].
    apply list_elem_of_filter in Hv as [[? ->] ?]. done.
  - intros (Hu & Hv & Hne & Hkey). exists u. split; [|done].
    rewrite decide_True by done. rewrite Hkey.
    apply list_elem_of_filter. done.
Qed.

Lemma out_edges_absent numbers froms u :
  u ∉ froms → out_edges numbers froms u = [].
Proof.
  intros Hu. destruct (out_edges numbers froms u) as [|v l] eqn:E; [done|].
  assert (Hv : v ∈ out_edges numbers froms u) by (rewrite E; left).
  apply out_edges_elem in Hv as [? _]. done.
Qed.

Lemma out_edges_NoDup numbers froms u :
  NoDup froms → NoDup numbers → NoDup (out_edges numbers froms u).
Proof.
  intros Hf Hn. induction Hf as [|from froms Hfrom Hf IH]; [constructor|].
  change (out_edges numbers (from :: froms) u)
    with ((if decide (u = from)
           then match suffix_key from with
                | Some key => filter (links from key) numbers
                | None => []
                end
           else []) ++ out_edges numbers froms u).
  case_decide; [subst from|done].
  rewrite out_edges_absent, app_nil_r by done.
  destruct (suffix_key u); [by apply NoDup_filter|constructor].
Qed.

Section built.
Variables (numbers : list string) (g : Graph).
Hypothesis built : build_graph numbers Graph_new = Some g.

Lemma built_neighbors u : get_neighbors g u = out_edges numbers numbers u.
Proof. by destruct (build_outer_loop _ _ _ _ built) as [_ ->]. Qed.

(** The edges of the graph are the pairs the loops select. *)
Lemma built_edge u v :
  v ∈ get_neighbors g u ↔
  u ∈ numbers ∧ v ∈ numbers ∧ u ≠ v ∧ suffix_key u = Some (first2 v).
Proof. rewrite built_neighbors. apply out_edges_elem. Qed.

Lemma built_tidy : tidy g.
Proof.
  destruct (build_outer_loop _ _ _ _ built) as [Ht _]. apply Ht.
  intros u l. unfold Graph_new. simpl. by rewrite lookup_empty.
Qed.

(** The keys of the table are the codes with an outgoing edge. *)
Lemma built_vertices v :
  v ∈ get_vertices g ↔ ∃ w, w ∈ get_neighbors g v.
Proof.
  rewrite get_vertices_elem. unfold get_neighbors. split.
  - intros [l Hl]. rewrite Hl.
    destruct l as [|w l]; [by apply built_tidy in Hl|].
    exists w. left.
  - intros [w Hw]. destruct (adj_list g !! v); [done|].
    by apply elem_of_nil in Hw.
Qed.

Lemma built_vertices_in v : v ∈ get_vertices g → v ∈ numbers.
Proof. intros [w Hw%built_edge]%built_vertices. tauto. Qed.

Lemma built_simple : NoDup numbers → ∀ u, NoDup (get_neighbors g u).
Proof. intros Hn u. rewrite built_neighbors. by apply out_edges_NoDup. Qed.
End built.

(** ** The paths of the result *)

Lemma chain_elems g (U : list string) a q :
  (∀ u v, v ∈ get_neighbors g u → v ∈ U) →
  chain g (a :: q) → a ∈ U → ∀ x, x ∈ a :: q → x ∈ U.
Proof.
  intros HU. revert a. induction q as [|b q IH]; intros a Hch Ha x Hx.
  - apply list_elem_of_singleton in Hx. by subst.
  - destruct Hch as [Hb Hch].
    apply elem_of_cons in Hx as [->|Hx]; [done|].
    apply (IH b); [done|by eapply HU|done].
Qed.

Lemma chain_lookup g p i a b :
  chain g p → p !! i = Some a → p !! S i = Some b → b ∈ get_neighbors g a.
Proof.
  revert i. induction p as [|x [|y p] IH]; intros i Hch Ha Hb; try done.
  destruct Hch as [Hy Hch]. destruct i as [|i].
  - simpl in Ha, Hb. by simplify_eq.
  - by apply (IH i).
Qed.

(** Every path of the result is a simple chain from a key of the table. *)
Lemma searched_paths g lp p :
  searched g lp → p ∈ get_all_longest_paths lp →
  NoDup p ∧ chain g p ∧ ∃ v q, p = v :: q ∧ v ∈ get_vertices g.
Proof.
  intros (tr & Hb & HP & _)%searched_spec Hp.
  assert (Hin : p ∈ (note_paths tr (0%Z, [])).2) by (by rewrite <- Hb).
  apply note_paths_elem in Hin as [Hin|Hin]; [by apply elem_of_nil in Hin|].
  rewrite Forall_forall in HP.
  destruct (HP p Hin) as (v & Hv & q & -> & Hch & Hnd & _).
  split_and!; [done|done|by exists v, q].
Qed.

(** ** Counting six-digit codes *)

Lemma is_digit_digits c : is_digit c = true → c ∈ digits.
Proof.
  unfold is_digit, digits. intros [H1 H2]%andb_true_iff.
  apply Nat.leb_le in H1, H2.
  apply list_elem_of_fmap. exists (nat_of_ascii c). split.
  - by rewrite ascii_nat_embedding.
  - apply elem_of_seq. lia.
Qed.

Lemma digit_strings_elem s :
  all_digits s = true → s ∈ digit_strings (String.length s).
Proof.
  induction s as [|c s IH]; cbn [all_digits String.length digit_strings];
    [intros _; left|].
  intros [Hc Hs]%andb_true_iff.
  apply list_elem_of_bind. exists s. split; [|by apply IH].
  apply list_elem_of_fmap. exists c. split; [done|by apply is_digit_digits].
Qed.

Lemma length_bind_const {A B : Type} (f : A → list B) k (l : list A) :
  (∀ x, length (f x) = k) → length (l ≫= f) = k * length l.
Proof.
  intros Hf. induction l as [|x l IH]; [simpl; lia|].
  rewrite bind_cons, length_app, Hf, IH. simpl. lia.
Qed.

Lemma digit_strings_length n :
  Z.of_nat (length (digit_strings n)) = (10 ^ Z.of_nat n)%Z.
Proof.
  induction n as [|n IH]; [done|].
  rewrite Nat2Z.inj_succ, Z.pow_succ_r by lia. rewrite <- IH.
  cbn [digit_strings].
  rewrite (length_bind_const _ 10); [lia|].
  intros s. by rewrite length_fmap.
Qed.

(** A list of distinct valid codes is shorter than [INT_MAX]. *)
Lemma valid_codes_bounded p :
  NoDup p → Forall (λ s, valid_num s = true) p →
  (vsize p ≤ Int.int_max)%Z.
Proof.
  intros Hnd Hv.
  assert (Hsub : p ⊆+ digit_strings 6).
  { apply NoDup_submseteq; [done|]. intros s Hs.
    rewrite Forall_forall in Hv. specialize (Hv s Hs).
    unfold valid_num in Hv. apply andb_true_iff in Hv as [Hl Hd].
    apply Nat.eqb_eq in Hl. rewrite <- Hl. by apply digit_strings_elem. }
  apply submseteq_length in Hsub.
  pose proof (digit_strings_length 6) as Hlen.
  unfold vsize, Int.int_max.
  change (10 ^ Z.of_nat 6)%Z with 1000000%Z in Hlen. lia.
Qed.

(** ** The search on a known graph *)

(** A run can be replayed with the fuel [searched_total] uses. *)
Lemma searched_replay g lp :
  searched g lp →
  ∃ vs, vs ≡ₚ get_vertices g ∧
        find_longest_paths (S (length (nodes g))) vs g LongestPath_new = Some lp.
Proof.
  intros (vs & fuel & Hvs & Hrun). exists vs. split; [done|].
  destruct (find_longest_paths_spec g (nodes g) (nodes_closed g)
              (S (length (nodes g))) ltac:(lia) vs LongestPath_new)
    as (tr & lp' & Hr & _).
  { intros v Hv. apply elem_of_app. left. by rewrite <- Hvs. }
  by rewrite (find_longest_paths_det _ _ _ _ _ _ _ Hrun Hr).
Qed.

Lemma searched_empty lp : searched Graph_new lp → lp = LongestPath_new.
Proof.
  intros (vs & Hvs & Hrun)%searched_replay.
  apply Permutation_nil_r in Hvs as ->. by injection Hrun.
Qed.

(** Under every order of the keys the search returns. *)
Lemma find_longest_paths_returns g vs :
  vertex_order g vs →
  ∃ fuel lp, find_longest_paths fuel vs g LongestPath_new = Some lp.
Proof.
  intros Hvs. unfold vertex_order in Hvs.
  destruct (find_longest_paths_spec g (nodes g) (nodes_closed g)
              (S (length (nodes g))) ltac:(lia) vs LongestPath_new)
    as (tr & lp & Hr & _).
  { intros v Hv. apply elem_of_app. left. by rewrite <- Hvs. }
  by exists (S (length (nodes g))), lp.
Qed.

(** What holds of every result of the search holds of the result the
    search returns under each order of the keys. *)
Lemma searched_every_order g (P : LongestPath → Prop) :
  (∀ lp, searched g lp → P lp) →
  ∀ vs, vertex_order g vs →
    ∃ fuel lp, find_longest_paths fuel vs g LongestPath_new = Some lp ∧ P lp.
Proof.
  intros HP vs Hvs.
  destruct (find_longest_paths_returns g vs Hvs) as (fuel & lp & Hr).
  exists fuel, lp. split; [done|]. apply HP. by exists vs, fuel.
Qed.

(** * The claims *)

Local Open Scope string_scope.

(** C9: building from the empty sequence returns a graph with no vertex
    and no edge; the search on it returns, with [max_length = 0] and an
    empty collection of paths. *)
Theorem empty_input_search :
  build_graph [] Graph_new = Some Graph_new ∧
  get_vertices Graph_new = [] ∧
  (∀ u, get_neighbors Graph_new u = []) ∧
  (∃ lp, searched Graph_new lp) ∧
  ∀ lp, searched Graph_new lp →
        get_max_length lp = 0%Z ∧ get_all_longest_paths lp = [].
Proof.
  split_and!; try done.
  - apply searched_total.
  - by intros lp ->%searched_empty.
Qed.

(** C1, evaluated on the code: from the input [123456, 123456] the inner
    loop adds no edge, the table stays empty, [get_vertices] returns no
    vertex, and the search ends with [max_length = 0] and no path. *)
Theorem duplicate_input_no_vertex :
  build_graph ["123456"; "123456"] Graph_new = Some Graph_new ∧
  get_vertices Graph_new = [] ∧
  (∃ lp, searched Graph_new lp) ∧
  ∀ lp, searched Graph_new lp →
        get_max_length lp = 0%Z ∧ get_all_longest_paths lp = [].
Proof.
  split_and!; try done.
  - apply searched_total.
  - by intros lp ->%searched_empty.
Qed.

(** C10: on the empty path [print_path] returns at once and writes
    nothing. *)
Theorem print_path_empty : print_path [] = Some EmptyString.
Proof. reflexivity. Qed.

(** *** Two worked inputs *)

(** Replays a search on a closed graph under each order of its one or two
    keys. *)
Ltac replay_search H :=
  let vs := fresh "vs" in
  let Hvs := fresh "Hvs" in
  let Hrun := fresh "Hrun" in
  apply searched_replay in H as (vs & Hvs & Hrun);
  vm_compute in Hvs; symmetry in Hvs;
  first [ apply Permutation_length_1_inv in Hvs; subst vs
        | apply Permutation_length_2_inv in Hvs; destruct Hvs; subst vs ];
  vm_compute in Hrun; injection Hrun as <-.

Lemma fork_runs :
  ∃ g, build_graph fork_input Graph_new = Some g ∧
       (∃ lp, searched g lp) ∧
       ∀ lp, searched g lp →
             get_max_length lp = 3%Z ∧
             get_all_longest_paths lp = [["221111"; "111122"; "221133"]].
Proof.
  eexists. split; [vm_compute; reflexivity|].
  split; [apply searched_total|].
  intros lp Hs. replay_search Hs; by split.
Qed.

Lemma repeated_runs :
  ∃ g, build_graph repeated_input Graph_new = Some g ∧
       (∃ lp, searched g lp) ∧
       ∀ lp, searched g lp →
             get_max_length lp = 2%Z ∧
             get_all_longest_paths lp =
               [["123456"; "567890"]; ["123456"; "567890"]].
Proof.
  eexists. split; [vm_compute; reflexivity|].
  split; [apply searched_total|].
  intros lp Hs. replay_search Hs; by split.
Qed.

(** C2 as stated fails: no run on the fork input ends with
    [max_length = 2] and the two paths of length 2 from 111122. *)
Lemma fork_input_not_two :
  ¬ (∀ g lp, build_graph fork_input Graph_new = Some g → searched g lp →
             get_max_length lp = 2%Z ∧
             get_all_longest_paths lp ≡ₚ
               [["111122"; "221111"]; ["111122"; "221133"]]).
Proof.
  intros H. destruct fork_runs as (g & Hg & [lp Hlp] & Hall).
  destruct (H g lp Hg Hlp) as [H2 _]. destruct (Hall lp Hlp) as [H3 _].
  congruence.
Qed.

(** C2, amended: on the input [111122, 221111, 221133] the graph also has
    the edge 221111 -> 111122 (suffix 11, prefix 11), so the search, under
    every order of the keys, returns and ends with [max_length = 3] and
    the single path [221111, 111122, 221133]. *)
Theorem fork_input_search :
  ∃ g, build_graph fork_input Graph_new = Some g ∧
       (∀ u v, v ∈ get_neighbors g u ↔
               (u = "111122" ∧ (v = "221111" ∨ v = "221133")) ∨
               (u = "221111" ∧ v = "111122")) ∧
       (∀ vs, vertex_order g vs →
          ∃ fuel lp,
            find_longest_paths fuel vs g LongestPath_new = Some lp ∧
            get_max_length lp = 3%Z ∧
            get_all_longest_paths lp = [["221111"; "111122"; "221133"]]) ∧
       ∀ lp, searched g lp →
             get_max_length lp = 3%Z ∧
             get_all_longest_paths lp = [["221111"; "111122"; "221133"]].
Proof.
  destruct fork_runs as (g & Hg & Hex & Hall).
  exists g. split_and!; try done; [|by apply searched_every_order].
  intros u v. rewrite (built_edge _ _ Hg). unfold fork_input.
  rewrite !elem_of_cons, !elem_of_nil.
  split.
  - intros ([->|[->|[->|[]]]] & [->|[->|[->|[]]]] & Hne & Hk);
      vm_compute in Hk; try done; auto.
  - intros [[-> [->| ->]]|[-> ->]]; split_and!; auto; done.
Qed.

(** C4 as stated fails: a code that occurs twice in the input is entered
    twice in a neighbour list, and the same path is recorded twice. *)
Lemma repeated_input_repeats_path :
  ¬ (∀ g lp, build_graph repeated_input Graph_new = Some g → searched g lp →
             NoDup (get_all_longest_paths lp)).
Proof.
  intros H. destruct repeated_runs as (g & Hg & [lp Hlp] & Hall).
  specialize (H g lp Hg Hlp). destruct (Hall lp Hlp) as [_ Hp].
  rewrite Hp in H. apply NoDup_cons in H as [Hin _].
  apply Hin. left.
Qed.

(** *** The graph *)

(** C3: on a sequence of six-character codes [build_graph] returns, and
    for distinct codes [u], [v] of the input there is an edge from [u] to
    [v] exactly when the last two characters of [u] are the first two of
    [v]; no code is its own neighbour. *)
Theorem edge_correctness (numbers : list string) :
  Forall (λ s, String.length s = 6) numbers →
  ∃ g, build_graph numbers Graph_new = Some g ∧
       (∀ u v, u ∈ numbers → v ∈ numbers → u ≠ v →
               (v ∈ get_neighbors g u ↔ last2 u = first2 v)) ∧
       (∀ u, u ∉ get_neighbors g u).
Proof.
  intros Hsix.
  destruct (build_graph_total numbers Graph_new Hsix) as [g Hg].
  exists g. split_and!; [done| |].
  - intros u v Hu Hv Hne. rewrite (built_edge _ _ Hg).
    rewrite Forall_forall in Hsix.
    rewrite (suffix_key_six u) by auto.
    split; [by intros (_ & _ & _ & [= ->])|].
    intros ->. done.
  - intros u (_ & _ & Hne & _)%(built_edge _ _ Hg). done.
Qed.

Lemma edge_correctness_witness :
  Forall (λ s, String.length s = 6) fork_input ∧
  ∃ g, build_graph fork_input Graph_new = Some g ∧
       (∀ u v, u ∈ fork_input → v ∈ fork_input → u ≠ v →
               (v ∈ get_neighbors g u ↔ last2 u = first2 v)) ∧
       (∀ u, u ∉ get_neighbors g u).
Proof.
  assert (H : Forall (λ s, String.length s = 6) fork_input)
    by (repeat constructor).
  split; [exact H|exact (edge_correctness fork_input H)].
Defined.

Lemma fork_graph_built : build_graph fork_input Graph_new = Some fork_graph.
Proof. vm_compute. reflexivity. Qed.

(** *** The result of the search *)

(** C4, amended: when no code occurs twice in the input, the search
    returns and its collection holds no path twice. *)
Theorem distinct_input_distinct_paths (numbers : list string) (g : Graph) :
  NoDup numbers →
  build_graph numbers Graph_new = Some g →
  (∃ lp, searched g lp) ∧
  ∀ lp, searched g lp → NoDup (get_all_longest_paths lp).
Proof.
  intros Hnd Hg. split; [apply searched_total|].
  intros lp (tr & Hb & _ & Htr)%searched_spec.
  apply (sublist_NoDup _ tr); [apply Htr, (built_simple _ _ Hg Hnd)|].
  change (get_all_longest_paths lp) with (best lp).2. rewrite Hb.
  apply (note_paths_sublist tr (0%Z, [])).
Qed.

Lemma distinct_input_distinct_paths_witness :
  NoDup fork_input ∧
  build_graph fork_input Graph_new = Some fork_graph ∧
  (∃ lp, searched fork_graph lp) ∧
  ∀ lp, searched fork_graph lp → NoDup (get_all_longest_paths lp).
Proof.
  assert (H1 : NoDup fork_input) by (apply (bool_decide_unpack _); by vm_compute).
  assert (H2 : build_graph fork_input Graph_new = Some fork_graph)
    by (vm_compute; reflexivity).
  split_and!; [exact H1|exact H2|
               apply (distinct_input_distinct_paths fork_input fork_graph H1 H2)..].
Defined.

(** C5: on a sequence of valid codes the search returns, and every path of
    its collection has exactly [get_max_length()] vertices. *)
Theorem length_consistency (numbers : list string) :
  Forall (λ s, valid_num s = true) numbers →
  ∃ g, build_graph numbers Graph_new = Some g ∧
       (∃ lp, searched g lp) ∧
       ∀ lp p, searched g lp → p ∈ get_all_longest_paths lp →
               vsize p = get_max_length lp.
Proof.
  intros Hvalid.
  assert (Hsix : Forall (λ s, String.length s = 6) numbers).
  { eapply Forall_impl; [exact Hvalid|]. intros s Hs. unfold valid_num in Hs.
    apply andb_true_iff in Hs as [Hl _]. by apply Nat.eqb_eq in Hl. }
  destruct (build_graph_total numbers Graph_new Hsix) as [g Hg].
  exists g. split_and!; [done|apply searched_total|].
  intros lp p Hs Hp.
  destruct (searched_spec g lp Hs) as (tr & Hb & HP & _).
  assert (Hc : consistent (best lp)).
  { rewrite Hb. apply note_paths_consistent.
    - eapply Forall_impl; [exact HP|].
      intros q (v & Hv & q' & -> & Hch & Hq & _). simpl.
      apply valid_codes_bounded; [done|].
      rewrite Forall_forall in Hvalid |- *. intros x Hx. apply Hvalid.
      apply (chain_elems g numbers v q'); try done.
      + intros u w Hw. apply (built_edge _ _ Hg) in Hw. tauto.
      + by apply (built_vertices_in _ _ Hg).
    - split; simpl; [unfold Int.int_max; lia|]. by intros ? ?%elem_of_nil. }
  destruct Hc as [_ Hall]. by apply Hall.
Qed.

Lemma length_consistency_witness :
  Forall (λ s, valid_num s = true) fork_input ∧
  ∃ g, build_graph fork_input Graph_new = Some g ∧
       (∃ lp, searched g lp) ∧
       ∀ lp p, searched g lp → p ∈ get_all_longest_paths lp →
               vsize p = get_max_length lp.
Proof.
  assert (H : Forall (λ s, valid_num s = true) fork_input)
    by (repeat constructor).
  split; [exact H|exact (length_consistency fork_input H)].
Defined.

(** C6: the search returns, and no path of its collection holds a code
    twice. *)
Theorem paths_simple (numbers : list string) (g : Graph) :
  build_graph numbers Graph_new = Some g →
  (∃ lp, searched g lp) ∧
  ∀ lp p, searched g lp → p ∈ get_all_longest_paths lp → NoDup p.
Proof.
  intros _. split; [apply searched_total|].
  intros lp p Hs Hp. by destruct (searched_paths g lp p Hs Hp) as [? _].
Qed.

Lemma paths_simple_witness :
  build_graph fork_input Graph_new = Some fork_graph ∧
  (∃ lp, searched fork_graph lp) ∧
  ∀ lp p, searched fork_graph lp → p ∈ get_all_longest_paths lp → NoDup p.
Proof.
  assert (H : build_graph fork_input Graph_new = Some fork_graph)
    by (vm_compute; reflexivity).
  split; [exact H|exact (paths_simple fork_input fork_graph H)].
Defined.

(** C7: on a sequence of six-character codes the search returns, and in
    every path of its collection the last two characters of a code are the
    first two of the code that follows it. *)
Theorem chain_validity (numbers : list string) :
  Forall (λ s, String.length s = 6) numbers →
  ∃ g, build_graph numbers Graph_new = Some g ∧
       (∃ lp, searched g lp) ∧
       ∀ lp p i a b,
         searched g lp → p ∈ get_all_longest_paths lp →
         p !! i = Some a → p !! S i = Some b →
         last2 a = first2 b.
Proof.
  intros Hsix.
  destruct (build_graph_total numbers Graph_new Hsix) as [g Hg].
  exists g. split_and!; [done|apply searched_total|].
  intros lp p i a b Hs Hp Ha Hb.
  destruct (searched_paths g lp p Hs Hp) as (_ & Hch & _).
  pose proof (chain_lookup g p i a b Hch Ha Hb) as He.
  apply (built_edge _ _ Hg) in He as (Hin & _ & _ & Hk).
  rewrite Forall_forall in Hsix.
  rewrite (suffix_key_six a) in Hk by auto. by injection Hk.
Qed.

Lemma chain_validity_witness :
  Forall (λ s, String.length s = 6) fork_input ∧
  ∃ g, build_graph fork_input Graph_new = Some g ∧
       (∃ lp, searched g lp) ∧
       ∀ lp p i a b,
         searched g lp → p ∈ get_all_longest_paths lp →
         p !! i = Some a → p !! S i = Some b →
         last2 a = first2 b.
Proof.
  assert (H : Forall (λ s, String.length s = 6) fork_input)
    by (repeat constructor).
  split; [exact H|exact (chain_validity fork_input H)].
Defined.

(** *** print_path *)

Lemma append_assoc (s1 s2 s3 : string) :
  (s1 +:+ s2) +:+ s3 = s1 +:+ (s2 +:+ s3).
Proof.
  induction s1 as [|c s1 IH]; [done|].
  change (String c ((s1 +:+ s2) +:+ s3) = String c (s1 +:+ (s2 +:+ s3))).
  by rewrite IH.
Qed.

Lemma append_empty_r (s : string) : s +:+ EmptyString = s.
Proof.
  induction s as [|c s IH]; [done|].
  change (String c (s +:+ EmptyString) = String c s). by rewrite IH.
Qed.

(** The pieces [print_path] cuts out of a six-character code. *)
Lemma six_parts v :
  String.length v = 6 →
  substr v 0 4 = Some (first4 v) ∧
  substr v 0 2 = Some (first2 v) ∧
  substr v 2 2 = Some (String.substring 2 2 v) ∧
  substr v 4 2 = Some (last2 v) ∧
  first2 v +:+ String.substring 2 2 v = first4 v ∧
  first4 v +:+ last2 v = v.
Proof.
  destruct v as [|c1 [|c2 [|c3 [|c4 [|c5 [|c6 [|c7 v]]]]]]]; try done.
Qed.

Lemma print_body_six pre v rest out :
  String.length v = 6 →
  print_body (pre ++ v :: rest) (length pre) out = Some (out +:+ first4 v).
Proof.
  intros (_ & H2 & H22 & _ & H4 & _)%six_parts. unfold print_body.
  rewrite list_lookup_middle by done. simpl.
  rewrite H2, H22. simpl. by rewrite append_assoc, H4.
Qed.

Lemma print_loop pre rest out :
  Forall (λ s, String.length s = 6) rest →
  for_each (print_body (pre ++ rest)) (seq (length pre) (length rest)) out =
  Some (out +:+ heads rest).
Proof.
  revert pre out. induction rest as [|v rest IH]; intros pre out Hsix.
  - simpl. by rewrite append_empty_r.
  - apply Forall_cons in Hsix as [Hv Hsix].
    cbn [length seq]. rewrite for_each_cons, print_body_six by done.
    simpl mbind.
    replace (pre ++ v :: rest)%list with ((pre ++ [v]) ++ rest)%list
      by (by rewrite <- app_assoc).
    replace (S (length pre)) with (length (pre ++ [v])%list)
      by (rewrite length_app; simpl; lia).
    rewrite IH by done. simpl. by rewrite append_assoc.
Qed.

Lemma reconstruction_heads v0 rest vk :
  last (v0 :: rest) = Some vk →
  (first4 v0 +:+ heads rest) +:+ last2 vk = reconstruction (v0 :: rest).
Proof.
  revert v0. induction rest as [|v1 rest IH]; intros v0 Hl.
  - injection Hl as ->. simpl. by rewrite append_empty_r.
  - rewrite last_cons_cons in Hl. rewrite append_assoc.
    cbn [heads]. rewrite (IH v1 Hl). done.
Qed.

(** C8 as stated fails: the text written for [123456, 567890] is not the
    ten digits alone, [endl] follows them. *)
Lemma print_path_chain_newline :
  print_path ["123456"; "567890"] ≠ Some "1234567890".
Proof. vm_compute. discriminate. Qed.

(** C8, amended: for a non-empty path of six-character codes [print_path]
    writes the reconstruction of the path followed by [endl]; for a single
    code the reconstruction is the code itself. *)
Theorem print_path_reconstruction (path : list string) :
  path ≠ [] →
  Forall (λ s, String.length s = 6) path →
  print_path path = Some (reconstruction path +:+ endl) ∧
  (∀ v0, path = [v0] → reconstruction path = v0).
Proof.
  intros Hne Hsix. destruct path as [|v0 rest]; [done|]. split.
  - pose proof Hsix as Hall. apply Forall_cons in Hsix as [Hv0 Hrest].
    destruct (six_parts v0 Hv0) as (H4 & _).
    unfold print_path. rewrite H4. simpl mbind.
    rewrite Nat.sub_0_r.
    pose proof (print_loop [v0] rest (first4 v0) Hrest) as Hloop.
    change (for_each (print_body (v0 :: rest)) (seq 1 (length rest))
              (first4 v0) = Some (first4 v0 +:+ heads rest)) in Hloop.
    rewrite Hloop. simpl mbind.
    destruct (last (v0 :: rest)) as [vk|] eqn:Hl;
      [|by apply last_None in Hl].
    simpl mbind.
    assert (Hvk : String.length vk = 6).
    { rewrite Forall_forall in Hall. apply Hall.
      apply last_Some in Hl as [l' ->]. apply elem_of_app. right. left. }
    destruct (six_parts vk Hvk) as (_ & _ & _ & -> & _). simpl mbind.
    by rewrite (reconstruction_heads v0 rest vk Hl).
  - intros v [= -> ->]. simpl.
    apply Forall_cons in Hsix as [Hv _]. by apply six_parts.
Qed.

Lemma print_path_reconstruction_witness :
  ["123456"; "567890"] ≠ [] ∧
  Forall (λ s, String.length s = 6) ["123456"; "567890"] ∧
  print_path ["123456"; "567890"] = Some ("1234567890" +:+ endl).
Proof.
  assert (H1 : ["123456"; "567890"] ≠ []) by discriminate.
  assert (H2 : Forall (λ s, String.length s = 6) ["123456"; "567890"])
    by (repeat constructor).
  split_and!; [exact H1|exact H2|].
  exact (proj1 (print_path_reconstruction ["123456"; "567890"] H1 H2)).
Defined.


(** * Further properties *)

Local Close Scope string_scope.

(** ** The search visits every simple chain *)

Section exhaustive.
Variable g : Graph.
Variable U : list string.
Hypothesis U_closed : ∀ u v, v ∈ get_neighbors g u → v ∈ U.

Lemma neighbors_loop_all call V cp :
  (∀ n s, n ∈ U → V n = false →
          current_path s = cp → (∀ k, seen s k = V k) →
          explores_all g V cp (extends g V cp n) s (call n s)) →
  ∀ ns s,
    (∀ n, n ∈ ns → n ∈ U) → (simple_graph g → NoDup ns) →
    current_path s = cp → (∀ k, seen s k = V k) →
    explores_all g V cp (λ p, ∃ n, n ∈ ns ∧ extends g V cp n p) s
                 (for_each (dfs_neighbor call) ns s).
Proof.
  intros Hcall ns.
  induction ns as [|n ns IH]; intros s HU Hnd Hcp HV.
  - exists [], s. split_and!; try done.
    + intros p. split; [by intros ?%elem_of_nil|].
      by intros (n & ?%elem_of_nil & _).
    + intros _. constructor.
  - rewrite for_each_cons.
    destruct (dfs_neighbor_spec call n s) as (s1 & -> & Hcp1 & Hb1 & HV1).
    assert (HU' : ∀ m, m ∈ ns → m ∈ U) by (intros m Hm; apply HU; by right).
    assert (Hnd' : simple_graph g → NoDup ns).
    { intros Hs. specialize (Hnd Hs). by apply NoDup_cons in Hnd as [_ ?]. }
    assert (Hcp1' : current_path s1 = cp) by congruence.
    assert (HV1' : ∀ k, seen s1 k = V k) by (intros k; by rewrite HV1).
    destruct (seen s n) eqn:Hn; simpl.
    + destruct (IH s1 HU' Hnd' Hcp1' HV1')
        as (tr & s' & Hr & Hcp' & HV' & Hb' & HP & Hnd'').
      exists tr, s'. split_and!; try done; [by rewrite Hb', Hb1|].
      intros p. rewrite HP. split.
      * intros (m & Hm & Hp). exists m. split; [by right|done].
      * intros (m & [->|Hm]%elem_of_cons & Hp); [|by exists m].
        destruct Hp as (q & _ & _ & _ & Hun).
        specialize (Hun n ltac:(left)). rewrite <- HV in Hun. congruence.
    + assert (Hn' : V n = false) by (by rewrite <- HV).
      destruct (Hcall n s1 (HU n ltac:(left)) Hn' Hcp1' HV1')
        as (tr1 & s2 & -> & Hcp2 & HV2 & Hb2 & HP1 & Hnd1).
      simpl.
      destruct (IH s2 HU' Hnd' Hcp2 HV2)
        as (tr2 & s' & Hr & Hcp' & HV' & Hb' & HP2 & Hnd2).
      exists (tr1 ++ tr2), s'. split_and!; try done.
      * by rewrite note_paths_app, Hb', Hb2, Hb1.
      * intros p. rewrite elem_of_app, HP1, HP2. split.
        -- intros [Hp|(m & Hm & Hp)]; [exists n|exists m];
             (split; [|done]); [left|by right].
        -- intros (m & [->|Hm]%elem_of_cons & Hp); [by left|].
           right. by exists m.
      * intros Hs. apply NoDup_app. split_and!; [by apply Hnd1| |by apply Hnd2].
        intros p Hp1 Hp2.
        apply HP1 in Hp1 as (q1 & Hq1 & _).
        apply HP2 in Hp2 as (m & Hm & q2 & Hq2 & _).
        rewrite Hq1 in Hq2. apply app_inv_head in Hq2.
        injection Hq2 as -> _.
        specialize (Hnd Hs). by apply NoDup_cons in Hnd as [? _].
Qed.

Lemma dfs_all fuel :
  ∀ V cp current lp,
    current_path lp = cp → (∀ k, seen lp k = V k) →
    unseen_count V U < fuel → current ∈ U → V current = false →
    explores_all g V cp (extends g V cp current) lp (dfs fuel g current lp).
Proof.
  induction fuel as [|fuel IH]; intros V cp current lp Hcp HV Hfuel HcU Hc;
    [lia|].
  set (V1 := λ k, if decide (current = k) then true else V k).
  set (lp0 := path_push current (visited_set current true lp)).
  destruct (update_longest_spec lp0) as (Hp1 & Hv1 & Hb1).
  assert (Hcp1 : current_path (update_longest lp0) = cp ++ [current]).
  { rewrite Hp1. simpl. by rewrite Hcp. }
  assert (HV1 : ∀ k, seen (update_longest lp0) k = V1 k).
  { intros k. unfold seen. rewrite Hv1.
    change (seen (visited_set current true lp) k = V1 k).
    rewrite seen_visited_set. unfold V1. case_decide; [done|apply HV]. }
  assert (Hfuel1 : unseen_count V1 U < fuel).
  { assert (unseen_count V1 U < unseen_count V U); [|lia].
    apply (unseen_count_lt V V1 U current); try done.
    - intros u Hu. unfold V1. by case_decide.
    - unfold V1. by rewrite decide_True. }
  destruct (neighbors_loop_all (dfs fuel g) V1 (cp ++ [current])
              (λ n s HnU Hn Hs1 Hs2, IH V1 _ n s Hs1 Hs2 Hfuel1 HnU Hn)
              (get_neighbors g current) (update_longest lp0)
              (λ n Hn, U_closed current n Hn) (λ Hs, Hs current) Hcp1 HV1)
    as (tr & s' & Hr & Hcp' & HV' & Hb' & HP & Hnd).
  exists ((cp ++ [current]) :: tr), (path_pop (visited_set current false s')).
  split_and!.
  - simpl. fold lp0. by rewrite Hr.
  - simpl. rewrite Hcp'. apply removelast_last.
  - intros k. change (seen (visited_set current false s') k = V k).
    rewrite seen_visited_set. case_decide as Hk; [by subst|].
    rewrite HV'. unfold V1. by rewrite decide_False.
  - change (best s' = note_paths tr (note_path (cp ++ [current]) (best lp))).
    rewrite Hb', Hb1. subst lp0. simpl. by rewrite Hcp.
  - intros p. rewrite elem_of_cons, HP. split.
    + intros [->|(n & Hn & q & Hq & Hch & Hsimple & Hun)].
      * exists []. split_and!; [done|done|apply NoDup_singleton|].
        intros x Hx. apply list_elem_of_singleton in Hx. by subst.
      * exists (n :: q). split_and!.
        -- by rewrite Hq, <- app_assoc.
        -- split; done.
        -- apply NoDup_cons. split; [|done].
           intros Hin. specialize (Hun current Hin).
           unfold V1 in Hun. by rewrite decide_True in Hun.
        -- intros x Hx. apply elem_of_cons in Hx as [->|Hx]; [done|].
           specialize (Hun x Hx). unfold V1 in Hun. by case_decide.
    + intros (q & -> & Hch & Hsimple & Hun).
      destruct q as [|n q]; [by left|]. right.
      destruct Hch as [Hn Hch]. apply NoDup_cons in Hsimple as [Hc' Hq].
      exists n. split; [done|]. exists q. split_and!; try done.
      * by rewrite <- app_assoc.
      * intros x Hx. unfold V1. rewrite decide_False; [|by intros <-].
        apply Hun. by right.
  - intros Hs. apply NoDup_cons. split; [|by apply Hnd].
    intros Hin. apply HP in Hin as (n & _ & q & Hq & _).
    apply (f_equal length) in Hq. rewrite !length_app in Hq.
    simpl in Hq. lia.
Qed.

Lemma find_longest_paths_all fuel :
  length U < fuel →
  ∀ vs lp,
    (∀ v, v ∈ vs → v ∈ U) →
    ∃ tr lp',
      find_longest_paths fuel vs g lp = Some lp' ∧
      best lp' = note_paths tr (best lp) ∧
      (vs ≠ [] → current_path lp' = [] ∧ ∀ k, seen lp' k = false) ∧
      (∀ p, p ∈ tr ↔ ∃ v, v ∈ vs ∧ extends g (λ _, false) [] v p) ∧
      (simple_graph g → NoDup vs → NoDup tr).
Proof.
  intros Hfuel vs. unfold find_longest_paths.
  induction vs as [|v vs IH]; intros lp HU.
  - exists [], lp. split_and!; try done.
    + intros p. split; [by intros ?%elem_of_nil|].
      by intros (n & ?%elem_of_nil & _).
    + intros _ _. constructor.
  - rewrite for_each_cons.
    destruct (dfs_all fuel (λ _, false) [] v (clear_scratch lp))
      as (tr1 & lp1 & -> & Hcp1 & HV1 & Hb1 & HP1 & Hnd1); try done.
    { pose proof (unseen_count_length (λ _, false) U). lia. }
    { apply HU. left. }
    simpl.
    destruct (IH lp1) as (tr2 & lp' & Hr & Hb' & Hclean & HP2 & Hnd2).
    { intros w Hw. apply HU. by right. }
    exists (tr1 ++ tr2), lp'. split_and!; try done.
    + by rewrite note_paths_app, Hb', Hb1.
    + intros _. destruct vs as [|w vs]; [|by apply Hclean].
      injection Hr as <-. done.
    + intros p. rewrite elem_of_app, HP1, HP2. split.
      * intros [Hp|(m & Hm & Hp)]; [exists v|exists m];
          (split; [|done]); [left|by right].
      * intros (m & [->|Hm]%elem_of_cons & Hp); [by left|].
        right. by exists m.
    + intros Hs Hvs. apply NoDup_cons in Hvs as [Hv Hvs].
      apply NoDup_app. split_and!; [by apply Hnd1| |by apply Hnd2].
      intros p Hp1 Hp2.
      apply HP1 in Hp1 as (q1 & Hq1 & _).
      apply HP2 in Hp2 as (w & Hw & q2 & Hq2 & _).
      simpl in Hq1, Hq2. congruence.
Qed.
End exhaustive.

Lemma extends_rooted g v p :
  v ∈ get_vertices g →
  extends g (λ _, false) [] v p → rooted g p.
Proof. intros Hv (q & -> & Hch & Hnd & _). by exists v, q. Qed.

Lemma rooted_extends g p :
  rooted g p → ∃ v, v ∈ get_vertices g ∧ extends g (λ _, false) [] v p.
Proof.
  intros (v & q & -> & Hv & Hch & Hnd). exists v. split; [done|].
  by exists q.
Qed.

(** The paths the search notes are exactly the simple chains that start at
    a key, and it leaves the scratch fields clean. *)
Lemma searched_all g lp :
  searched g lp →
  ∃ tr,
    best lp = note_paths tr (0%Z, []) ∧
    (∀ p, p ∈ tr ↔ rooted g p) ∧
    ((∀ u, NoDup (get_neighbors g u)) → NoDup tr) ∧
    current_path lp = [] ∧ ∀ k, seen lp k = false.
Proof.
  intros (vs & fuel & Hvs & Hrun). unfold vertex_order in Hvs.
  destruct (find_longest_paths_all g (nodes g) (nodes_closed g)
              (S (length (nodes g))) ltac:(lia) vs LongestPath_new)
    as (tr & lp' & Hr & Hb & Hclean & HP & Hnd).
  { intros v Hv. apply elem_of_app. left. by rewrite <- Hvs. }
  assert (lp' = lp) as -> by (eapply find_longest_paths_det; eauto).
  exists tr. split_and!; [done| | | |].
  - intros p. rewrite HP. split.
    + intros (v & Hv & Hp). apply (extends_rooted g v); [by rewrite <- Hvs|done].
    + intros (v & Hv & Hp)%rooted_extends. exists v. by rewrite Hvs.
  - intros Hs. apply Hnd; [done|]. rewrite Hvs. apply get_vertices_NoDup.
  - destruct vs as [|v vs]; [by injection Hr as <-|]. by apply Hclean.
  - destruct vs as [|v vs]; [by injection Hr as <-|]. by apply Hclean.
Qed.

(** ** The result fields as a function of what was noted *)

Lemma longest_nonneg tr : (0 ≤ longest tr)%Z.
Proof. induction tr as [|p tr IH]; simpl; lia. Qed.

Lemma longest_ge tr p : p ∈ tr → (vsize p ≤ longest tr)%Z.
Proof.
  induction tr as [|q tr IH]; [by intros ?%elem_of_nil|].
  intros [->|Hp]%elem_of_cons; simpl; [lia|]. specialize (IH Hp). lia.
Qed.

Lemma longest_attained tr : tr ≠ [] → ∃ p, p ∈ tr ∧ vsize p = longest tr.
Proof.
  induction tr as [|q tr IH]; [done|]. intros _.
  destruct tr as [|q' tr].
  - exists q. split; [left|]. simpl. unfold vsize. lia.
  - destruct (IH ltac:(done)) as (p & Hp & Hlen).
    destruct (Z.le_ge_cases (vsize q) (longest (q' :: tr))) as [Hle|Hge].
    + exists p. split; [by right|]. cbn [longest] in *. lia.
    + exists q. split; [left|]. cbn [longest] in *. lia.
Qed.

Lemma longest_bounded tr (M : Z) :
  (0 ≤ M)%Z → Forall (λ p, (vsize p ≤ M)%Z) tr → (longest tr ≤ M)%Z.
Proof.
  intros HM Htr. induction Htr as [|p tr Hp Htr IH]; simpl; lia.
Qed.

Lemma ties_elem m tr p : p ∈ ties m tr ↔ p ∈ tr ∧ vsize p = m.
Proof. unfold ties. rewrite list_elem_of_filter. tauto. Qed.

(** Noting the paths of [tr] leaves the greatest size seen and, in the
    order they were noted, the paths of that size. *)
Lemma note_paths_exact tr m ps :
  (0 ≤ m ≤ Int.int_max)%Z →
  Forall (λ p, (vsize p ≤ Int.int_max)%Z) tr →
  note_paths tr (m, ps) =
  (Z.max m (longest tr),
   (if decide (m = Z.max m (longest tr)) then ps else []) ++
   ties (Z.max m (longest tr)) tr).
Proof.
  revert m ps. induction tr as [|p tr IH]; intros m ps Hm Htr.
  - simpl. rewrite Z.max_l by lia. rewrite decide_True by done.
    by rewrite app_nil_r.
  - apply Forall_cons in Htr as [Hp Htr].
    assert (0 ≤ vsize p)%Z by (unfold vsize; lia).
    pose proof (longest_nonneg tr) as Hl.
    change (note_paths (p :: tr) (m, ps))
      with (note_paths tr (note_path p (m, ps))).
    unfold note_path. cbn [fst snd]. rewrite to_size_t_small by done.
    cbn [longest]. unfold ties. rewrite filter_cons. fold (ties (Z.max m (Z.max (vsize p) (longest tr))) tr).
    destruct (Z.ltb_spec m (vsize p)) as [Hlt|Hge].
    + rewrite to_int_small by lia. rewrite IH by (done || lia).
      replace (Z.max m (Z.max (vsize p) (longest tr)))
        with (Z.max (vsize p) (longest tr)) by lia.
      f_equal. rewrite (decide_False (P := m = _)) by lia.
      repeat case_decide; try lia; done.
    + destruct (Z.eqb_spec (vsize p) m) as [Heq|Hne].
      * rewrite IH by done.
        replace (Z.max m (Z.max (vsize p) (longest tr)))
          with (Z.max m (longest tr)) by lia.
        f_equal. repeat case_decide; try lia; [|done].
        by rewrite <- app_assoc.
      * rewrite IH by done.
        replace (Z.max m (Z.max (vsize p) (longest tr)))
          with (Z.max m (longest tr)) by lia.
        f_equal. rewrite (decide_False (P := vsize p = _)) by lia. done.
Qed.

(** ** What the search returns on valid codes *)

Lemma valid_num_six s : valid_num s = true → String.length s = 6.
Proof.
  unfold valid_num. intros [Hl _]%andb_true_iff. by apply Nat.eqb_eq in Hl.
Qed.

Section built_valid.
Variables (numbers : list string) (g : Graph).
Hypothesis valid : Forall (λ s, valid_num s = true) numbers.
Hypothesis built : build_graph numbers Graph_new = Some g.

Lemma numbers_six u : u ∈ numbers → String.length u = 6.
Proof.
  intros Hu. apply valid_num_six.
  by apply (proj1 (Forall_forall _ _) valid).
Qed.

Lemma built_edge_six u v :
  v ∈ get_neighbors g u ↔
  u ∈ numbers ∧ v ∈ numbers ∧ u ≠ v ∧ last2 u = first2 v.
Proof.
  rewrite (built_edge _ _ built). split.
  - intros (Hu & Hv & Hne & Hk). rewrite (suffix_key_six u) in Hk
      by (by apply numbers_six). by simplify_eq.
  - intros (Hu & Hv & Hne & Hk). rewrite (suffix_key_six u)
      by (by apply numbers_six). by rewrite Hk.
Qed.

Lemma rooted_in_numbers p x : rooted g p → x ∈ p → x ∈ numbers.
Proof.
  intros (v & q & -> & Hv & Hch & _) Hx.
  apply (chain_elems g numbers v q); try done.
  - intros u w Hw%built_edge_six. tauto.
  - by apply (built_vertices_in _ _ built).
Qed.

Lemma rooted_bounded p : rooted g p → (vsize p ≤ Int.int_max)%Z.
Proof.
  intros Hp. apply valid_codes_bounded.
  - by destruct Hp as (v & q & -> & _ & _ & ?).
  - apply Forall_forall. intros x Hx.
    apply (proj1 (Forall_forall _ _) valid).
    by apply (rooted_in_numbers p).
Qed.

Lemma rooted_length p : rooted g p → length p ≤ length numbers.
Proof.
  intros Hp. apply submseteq_length, NoDup_submseteq.
  - by destruct Hp as (v & q & -> & _ & _ & ?).
  - intros x Hx. by apply (rooted_in_numbers p).
Qed.




Lemma key_has_pair v :
  v ∈ get_vertices g → ∃ w, rooted g [v; w].
Proof.
  intros Hv. pose proof Hv as [w Hw]%(built_vertices _ _ built).
  exists w. exists v, [w]. split_and!; try done.
  apply built_edge_six in Hw as (_ & _ & Hne & _).
  apply NoDup_cons. split; [by intros ->%list_elem_of_singleton|].
  apply NoDup_singleton.
Qed.

(** The result fields in closed form. *)
Lemma searched_exact lp :
  searched g lp →
  ∃ tr,
    (∀ p, p ∈ tr ↔ rooted g p) ∧
    ((∀ u, NoDup (get_neighbors g u)) → NoDup tr) ∧
    get_max_length lp = longest tr ∧
    get_all_longest_paths lp = ties (longest tr) tr.
Proof.
  intros (tr & Hb & HP & Hnd & _)%searched_all.
  exists tr. split_and!; [done|done| |].
  - change (get_max_length lp) with (best lp).1. rewrite Hb.
    rewrite note_paths_exact.
    + simpl. pose proof (longest_nonneg tr). lia.
    + unfold Int.int_max. lia.
    + apply Forall_forall. intros p Hp%HP. by apply rooted_bounded.
  - change (get_all_longest_paths lp) with (best lp).2. rewrite Hb.
    rewrite note_paths_exact.
    + simpl. pose proof (longest_nonneg tr).
      rewrite Z.max_r by lia. by case_decide.
    + unfold Int.int_max. lia.
    + apply Forall_forall. intros p Hp%HP. by apply rooted_bounded.
Qed.

Lemma searched_maximal lp p :
  searched g lp → rooted g p → (vsize p ≤ get_max_length lp)%Z.
Proof.
  intros (tr & HP & _ & -> & _)%searched_exact Hp.
  by apply longest_ge, HP.
Qed.

Lemma searched_content lp p :
  searched g lp →
  p ∈ get_all_longest_paths lp ↔ rooted g p ∧ vsize p = get_max_length lp.
Proof.
  intros (tr & HP & _ & -> & ->)%searched_exact.
  by rewrite ties_elem, HP.
Qed.

Lemma searched_two lp :
  searched g lp → get_vertices g ≠ [] →
  (2 ≤ get_max_length lp)%Z ∧ get_all_longest_paths lp ≠ [].
Proof.
  intros Hs Hne.
  destruct (get_vertices g) as [|v vs] eqn:Hvs; [done|].
  destruct (key_has_pair v) as [w Hw]; [rewrite Hvs; left|].
  split; [apply (searched_maximal lp [v; w] Hs Hw)|].
  destruct (searched_exact lp Hs) as (tr & HP & _ & _ & ->).
  destruct (longest_attained tr) as (p & Hp & Hlen).
  { intros ->. by apply HP, elem_of_nil in Hw. }
  intros Hnil. assert (Hin : p ∈ ties (longest tr) tr) by (by apply ties_elem).
  rewrite Hnil in Hin. by apply elem_of_nil in Hin.
Qed.

Lemma searched_none lp :
  searched g lp → get_vertices g = [] →
  get_max_length lp = 0%Z ∧ get_all_longest_paths lp = [].
Proof.
  intros (tr & HP & _ & -> & ->)%searched_exact Hnil.
  assert (tr = []) as ->; [|done].
  destruct tr as [|p tr]; [done|].
  assert (Hp : rooted g p) by (apply HP; left).
  destruct Hp as (v & q & _ & Hv & _). rewrite Hnil in Hv.
  by apply elem_of_nil in Hv.
Qed.
End built_valid.

Lemma longest_same tr1 tr2 :
  (∀ p, p ∈ tr1 ↔ p ∈ tr2) → longest tr1 = longest tr2.
Proof.
  assert (Hle : ∀ a b : list (list string),
            (∀ p, p ∈ a → p ∈ b) → (longest a ≤ longest b)%Z).
  { intros a b Hab. destruct a as [|q a]; [apply longest_nonneg|].
    destruct (longest_attained (q :: a)) as (p & Hp & <-); [done|].
    by apply longest_ge, Hab. }
  intros H. apply Z.le_antisymm; apply Hle; intros p; apply H.
Qed.





(** The search never reports a longest sequence of one code: on valid
    codes, under every order of the keys, the search returns, with
    [get_max_length()] at least 2 and a non-empty collection when two
    distinct input codes overlap, and with [get_max_length()] 0 and an
    empty collection when none do. *)
Theorem search_zero_or_two (numbers : list string) :
  Forall (λ s, valid_num s = true) numbers →
  ∃ g, build_graph numbers Graph_new = Some g ∧
       ∀ vs, vertex_order g vs →
         ∃ fuel lp,
           find_longest_paths fuel vs g LongestPath_new = Some lp ∧
           ((∃ u v, u ∈ numbers ∧ v ∈ numbers ∧ u ≠ v ∧
                    last2 u = first2 v) →
            (2 ≤ get_max_length lp)%Z ∧ get_all_longest_paths lp ≠ []) ∧
           (¬ (∃ u v, u ∈ numbers ∧ v ∈ numbers ∧ u ≠ v ∧
                      last2 u = first2 v) →
            get_max_length lp = 0%Z ∧ get_all_longest_paths lp = []).
Proof.
  intros Hvalid.
  destruct (build_graph_total numbers Graph_new) as [g Hg].
  { eapply Forall_impl; [exact Hvalid|]. apply valid_num_six. }
  exists g. split; [done|].
  apply (searched_every_order g
           (λ lp,
              ((∃ u v, u ∈ numbers ∧ v ∈ numbers ∧ u ≠ v ∧
                       last2 u = first2 v) →
               (2 ≤ get_max_length lp)%Z ∧ get_all_longest_paths lp ≠ []) ∧
              (¬ (∃ u v, u ∈ numbers ∧ v ∈ numbers ∧ u ≠ v ∧
                         last2 u = first2 v) →
               get_max_length lp = 0%Z ∧ get_all_longest_paths lp = []))).
  intros lp Hs. split.
  - intros (u & v & Hu & Hv & Hne & Hk).
    apply (searched_two numbers g Hvalid Hg lp Hs).
    assert (Hkey : u ∈ get_vertices g).
    { apply (built_vertices _ _ Hg). exists v.
      by apply (built_edge_six numbers g Hvalid Hg). }
    intros Hnil. rewrite Hnil in Hkey. by apply elem_of_nil in Hkey.
  - intros Hno. apply (searched_none numbers g Hvalid Hg lp Hs).
    destruct (get_vertices g) as [|u vs] eqn:Hvs; [done|].
    assert (Hkey : u ∈ get_vertices g) by (rewrite Hvs; left).
    apply (built_vertices _ _ Hg) in Hkey as [v Hv].
    apply (built_edge_six numbers g Hvalid Hg) in Hv.
    destruct Hno. exists u, v. tauto.
Qed.

Lemma search_zero_or_two_witness :
  Forall (λ s, valid_num s = true) fork_input ∧
  ∃ g, build_graph fork_input Graph_new = Some g ∧
       ∀ vs, vertex_order g vs →
         ∃ fuel lp,
           find_longest_paths fuel vs g LongestPath_new = Some lp ∧
           ((∃ u v, u ∈ fork_input ∧ v ∈ fork_input ∧ u ≠ v ∧
                    last2 u = first2 v) →
            (2 ≤ get_max_length lp)%Z ∧ get_all_longest_paths lp ≠ []) ∧
           (¬ (∃ u v, u ∈ fork_input ∧ v ∈ fork_input ∧ u ≠ v ∧
                      last2 u = first2 v) →
            get_max_length lp = 0%Z ∧ get_all_longest_paths lp = []).
Proof.
  assert (H : Forall (λ s, valid_num s = true) fork_input)
    by (repeat constructor).
  split; [exact H|exact (search_zero_or_two fork_input H)].
Defined.

(** [get_max_length()] is between 0 and the number of input codes. *)
Theorem max_length_bounded (numbers : list string) :
  Forall (λ s, valid_num s = true) numbers →
  ∃ g, build_graph numbers Graph_new = Some g ∧
       ∀ lp, searched g lp →
             (0 ≤ get_max_length lp ≤ Z.of_nat (length numbers))%Z.
Proof.
  intros Hvalid.
  destruct (build_graph_total numbers Graph_new) as [g Hg].
  { eapply Forall_impl; [exact Hvalid|]. apply valid_num_six. }
  exists g. split; [done|]. intros lp Hs.
  destruct (searched_exact numbers g Hvalid Hg lp Hs) as (tr & HP & _ & -> & _).
  split; [apply longest_nonneg|].
  destruct tr as [|q tr]; [simpl; lia|].
  destruct (longest_attained (q :: tr)) as (p & Hp & <-); [done|].
  apply HP in Hp. apply (rooted_length numbers g Hvalid Hg) in Hp.
  unfold vsize. lia.
Qed.

Lemma max_length_bounded_witness :
  Forall (λ s, valid_num s = true) fork_input ∧
  ∃ g, build_graph fork_input Graph_new = Some g ∧
       ∀ lp, searched g lp →
             (0 ≤ get_max_length lp ≤ Z.of_nat (length fork_input))%Z.
Proof.
  assert (H : Forall (λ s, valid_num s = true) fork_input)
    by (repeat constructor).
  split; [exact H|exact (max_length_bounded fork_input H)].
Defined.

(** The order in which the hash table yields its keys does not change the
    answer: on valid codes two runs end with the same [get_max_length()]
    and the same paths, and when no code occurs twice in the input the two
    collections are permutations of each other. *)
Theorem search_order_independent (numbers : list string) :
  Forall (λ s, valid_num s = true) numbers →
  ∃ g, build_graph numbers Graph_new = Some g ∧
       ∀ lp1 lp2, searched g lp1 → searched g lp2 →
         get_max_length lp1 = get_max_length lp2 ∧
         (∀ p, p ∈ get_all_longest_paths lp1 ↔ p ∈ get_all_longest_paths lp2) ∧
         (NoDup numbers →
          get_all_longest_paths lp1 ≡ₚ get_all_longest_paths lp2).
Proof.
  intros Hvalid.
  destruct (build_graph_total numbers Graph_new) as [g Hg].
  { eapply Forall_impl; [exact Hvalid|]. apply valid_num_six. }
  exists g. split; [done|]. intros lp1 lp2 Hs1 Hs2.
  destruct (searched_exact numbers g Hvalid Hg lp1 Hs1)
    as (tr1 & HP1 & Hnd1 & Hm1 & Hl1).
  destruct (searched_exact numbers g Hvalid Hg lp2 Hs2)
    as (tr2 & HP2 & Hnd2 & Hm2 & Hl2).
  assert (Hsame : longest tr1 = longest tr2).
  { apply longest_same. intros p. by rewrite HP1, HP2. }
  assert (Helem : ∀ p, p ∈ get_all_longest_paths lp1 ↔
                       p ∈ get_all_longest_paths lp2).
  { intros p. by rewrite Hl1, Hl2, !ties_elem, HP1, HP2, Hsame. }
  split_and!; [congruence|done|].
  intros Hnd. pose proof (built_simple _ _ Hg Hnd) as Hsimple.
  apply NoDup_Permutation; [| |done].
  - rewrite Hl1. apply NoDup_filter. auto.
  - rewrite Hl2. apply NoDup_filter. auto.
Qed.

Lemma search_order_independent_witness :
  Forall (λ s, valid_num s = true) fork_input ∧
  ∃ g, build_graph fork_input Graph_new = Some g ∧
       ∀ lp1 lp2, searched g lp1 → searched g lp2 →
         get_max_length lp1 = get_max_length lp2 ∧
         (∀ p, p ∈ get_all_longest_paths lp1 ↔ p ∈ get_all_longest_paths lp2) ∧
         (NoDup fork_input →
          get_all_longest_paths lp1 ≡ₚ get_all_longest_paths lp2).
Proof.
  assert (H : Forall (λ s, valid_num s = true) fork_input)
    by (repeat constructor).
  split; [exact H|exact (search_order_independent fork_input H)].
Defined.

(** [find_longest_paths] does not reset the result fields: called a second
    time on the same object it returns with [max_length] unchanged and
    with every path of the collection appended once more. *)
Theorem second_search_appends (numbers : list string) :
  Forall (λ s, valid_num s = true) numbers →
  ∃ g, build_graph numbers Graph_new = Some g ∧
       ∀ lp1 vs, searched g lp1 → vertex_order g vs →
         (∃ fuel lp2, find_longest_paths fuel vs g lp1 = Some lp2) ∧
         ∀ fuel lp2, find_longest_paths fuel vs g lp1 = Some lp2 →
           get_max_length lp2 = get_max_length lp1 ∧
           ∃ again,
             get_all_longest_paths lp2 = get_all_longest_paths lp1 ++ again ∧
             (∀ p, p ∈ again ↔ p ∈ get_all_longest_paths lp1) ∧
             (NoDup numbers → again ≡ₚ get_all_longest_paths lp1).
Proof.
  intros Hvalid.
  destruct (build_graph_total numbers Graph_new) as [g Hg].
  { eapply Forall_impl; [exact Hvalid|]. apply valid_num_six. }
  exists g. split; [done|]. intros lp1 vs Hs1 Hvs. unfold vertex_order in Hvs.
  destruct (searched_exact numbers g Hvalid Hg lp1 Hs1)
    as (tr1 & HP1 & Hnd1 & Hm1 & Hl1).
  destruct (find_longest_paths_all g (nodes g) (nodes_closed g)
              (S (length (nodes g))) ltac:(lia) vs lp1)
    as (tr2 & lp2 & Hr & Hb & _ & HP2 & Hnd2).
  { intros v Hv. apply elem_of_app. left. by rewrite <- Hvs. }
  split; [by eauto|]. intros fuel lp2' Hrun.
  assert (lp2' = lp2) as -> by (eapply find_longest_paths_det; eauto).
  assert (HP2' : ∀ p, p ∈ tr2 ↔ rooted g p).
  { intros p. rewrite HP2. split.
    - intros (v & Hv & Hp). apply (extends_rooted g v); [by rewrite <- Hvs|done].
    - intros (v & Hv & Hp)%rooted_extends. exists v. by rewrite Hvs. }
  assert (Hsame : longest tr2 = longest tr1).
  { apply longest_same. intros p. by rewrite HP1, HP2'. }
  assert (Hbound : ∀ tr, (∀ p, p ∈ tr ↔ rooted g p) →
            Forall (λ p, (vsize p ≤ Int.int_max)%Z) tr).
  { intros tr HP. apply Forall_forall. intros p Hp%HP.
    by apply (rooted_bounded numbers g Hvalid Hg). }
  assert (Hbest : best lp2 =
            (longest tr1, get_all_longest_paths lp1 ++ ties (longest tr1) tr2)).
  { rewrite Hb. change (best lp1)
      with (get_max_length lp1, get_all_longest_paths lp1).
    rewrite Hm1, note_paths_exact.
    - rewrite Hsame, Z.max_id. by rewrite decide_True.
    - split; [apply longest_nonneg|].
      apply longest_bounded; [unfold Int.int_max; lia|by apply Hbound].
    - by apply Hbound. }
  split; [by rewrite Hm1; apply (f_equal fst) in Hbest|].
  exists (ties (longest tr1) tr2). split_and!.
  - by apply (f_equal snd) in Hbest.
  - intros p. by rewrite Hl1, !ties_elem, HP1, HP2'.
  - intros Hnd. pose proof (built_simple _ _ Hg Hnd) as Hsimple.
    apply NoDup_Permutation.
    + apply NoDup_filter, Hnd2; [done|]. rewrite Hvs. apply get_vertices_NoDup.
    + rewrite Hl1. apply NoDup_filter. auto.
    + intros p. by rewrite Hl1, !ties_elem, HP1, HP2'.
Qed.

Lemma second_search_appends_witness :
  Forall (λ s, valid_num s = true) fork_input ∧
  ∃ g, build_graph fork_input Graph_new = Some g ∧
       ∀ lp1 vs, searched g lp1 → vertex_order g vs →
         (∃ fuel lp2, find_longest_paths fuel vs g lp1 = Some lp2) ∧
         ∀ fuel lp2, find_longest_paths fuel vs g lp1 = Some lp2 →
           get_max_length lp2 = get_max_length lp1 ∧
           ∃ again,
             get_all_longest_paths lp2 = get_all_longest_paths lp1 ++ again ∧
             (∀ p, p ∈ again ↔ p ∈ get_all_longest_paths lp1) ∧
             (NoDup fork_input → again ≡ₚ get_all_longest_paths lp1).
Proof.
  assert (H : Forall (λ s, valid_num s = true) fork_input)
    by (repeat constructor).
  split; [exact H|exact (second_search_appends fork_input H)].
Defined.

(** The backtracking of [dfs]: started on a vertex that is not marked, it
    returns, whatever the graph, and leaves the path buffer and the marks
    as it found them. *)
Theorem dfs_restores_scratch (g : Graph) (current : string) (lp : LongestPath) :
  seen lp current = false →
  ∃ fuel lp',
    dfs fuel g current lp = Some lp' ∧
    current_path lp' = current_path lp ∧
    ∀ k, seen lp' k = seen lp k.
Proof.
  intros Hc.
  destruct (dfs_all g (current :: nodes g)
              (λ u v Hv, proj2 (elem_of_cons _ _ _) (or_intror (nodes_closed g u v Hv)))
              (S (length (current :: nodes g))) (seen lp) (current_path lp)
              current lp)
    as (tr & lp' & Hr & Hcp & HV & _); try done.
  - pose proof (unseen_count_length (seen lp) (current :: nodes g)). lia.
  - left.
  - by exists (S (length (current :: nodes g))), lp'.
Qed.

Lemma dfs_restores_scratch_witness :
  seen LongestPath_new "111122" = false ∧
  ∃ fuel lp',
    dfs fuel fork_graph "111122" LongestPath_new = Some lp' ∧
    current_path lp' = current_path LongestPath_new ∧
    ∀ k, seen lp' k = seen LongestPath_new k.
Proof.
  assert (H : seen LongestPath_new "111122" = false) by reflexivity.
  split; [exact H|exact (dfs_restores_scratch fork_graph "111122" _ H)].
Defined.

(** Whatever the graph and the order of its keys, [find_longest_paths]
    returns, and afterwards the path buffer is empty and no vertex is
    left marked. *)
Theorem search_leaves_scratch_clean (g : Graph) (vs : list string) :
  vertex_order g vs →
  ∃ fuel lp,
    find_longest_paths fuel vs g LongestPath_new = Some lp ∧
    current_path lp = [] ∧ ∀ k, seen lp k = false.
Proof.
  apply (searched_every_order g
           (λ lp, current_path lp = [] ∧ ∀ k, seen lp k = false)).
  intros lp (tr & _ & _ & _ & Hcp & HV)%searched_all. done.
Qed.

Lemma search_leaves_scratch_clean_witness :
  vertex_order fork_graph ["221111"; "111122"] ∧
  ∃ fuel lp,
    find_longest_paths fuel ["221111"; "111122"] fork_graph LongestPath_new
      = Some lp ∧
    current_path lp = [] ∧ ∀ k, seen lp k = false.
Proof.
  assert (H : vertex_order fork_graph ["221111"; "111122"])
    by (vm_compute; apply perm_swap).
  split; [exact H|exact (search_leaves_scratch_clean fork_graph _ H)].
Defined.

(** ** The table of the graph *)

(** [add_edge] and the two readers: the target is appended to the list of
    the source, the source becomes a key, nothing else changes. *)
Theorem add_edge_read (from to : string) (g : Graph) (u : string) :
  get_neighbors (add_edge from to g) u =
    (if decide (u = from) then get_neighbors g u ++ [to]
     else get_neighbors g u) ∧
  (u ∈ get_vertices (add_edge from to g) ↔ u = from ∨ u ∈ get_vertices g).
Proof.
  split.
  - rewrite get_neighbors_add_edge. case_decide; [done|by rewrite app_nil_r].
  - rewrite !get_vertices_elem. unfold add_edge. simpl.
    rewrite lookup_insert. case_decide as Hk.
    + subst. split; [by left|by eexists].
    + split; [by right|]. by intros [->|?].
Qed.

Lemma suffix_key_short s : suffix_key s = None ↔ String.length s < 2.
Proof.
  unfold suffix_key, substr, size, Int.to_size_t, Int.size_modulus.
  destruct (String.length s) as [|[|n]] eqn:Hlen.
  - split; [lia|done].
  - split; [lia|done].
  - assert (Hpos : ((Z.of_nat (S (S n)) - 2) mod 2 ^ 64 ≤ Z.of_nat (S (S n)))%Z).
    { etrans; [apply Z.mod_le; lia|lia]. }
    apply Z.leb_le in Hpos. rewrite Hpos. split; [done|lia].
Qed.

Lemma build_outer_loop_None numbers froms g :
  for_each (build_outer numbers) froms g = None ↔
  Exists (λ s, String.length s < 2) froms.
Proof.
  revert g. induction froms as [|from froms IH]; intros g.
  - split; [done|by intros ?%Exists_nil].
  - rewrite for_each_cons, build_outer_eq, Exists_cons, <- suffix_key_short.
    destruct (suffix_key from) as [key|] eqn:Hkey; simpl; [|by split; auto].
    destruct (build_inner_loop from key numbers g) as (g1 & -> & _).
    simpl. rewrite IH. split; [by right|by intros [?|?]].
Qed.

(** The one exception of [build_graph]: it throws exactly when the input
    holds a string of fewer than two characters (the position
    [size() - 2] wraps around); on every other input, the empty one
    included, it returns. *)
Theorem build_graph_throws_iff_short (numbers : list string) (g : Graph) :
  build_graph numbers g = None ↔ Exists (λ s, String.length s < 2) numbers.
Proof. apply build_outer_loop_None. Qed.

Lemma out_edges_replicate numbers froms u :
  out_edges numbers froms u =
  mjoin (replicate (length (filter (λ x, x = u) froms))
           (match suffix_key u with
            | Some key => filter (links u key) numbers
            | None => []
            end)).
Proof.
  induction froms as [|from froms IH]; [done|].
  change (out_edges numbers (from :: froms) u)
    with ((if decide (u = from)
           then match suffix_key from with
                | Some key => filter (links from key) numbers
                | None => []
                end
           else []) ++ out_edges numbers froms u).
  rewrite filter_cons, IH.
  case_decide as H1; case_decide as H2; subst; try done.
Qed.

(** The neighbour list in full: on six-character codes the list of [u]
    holds the input codes that [u] overlaps, in the order of the input,
    and holds them once for each occurrence of [u] in the input; it is
    empty for a string that is not in the input. *)
Theorem neighbors_in_input_order (numbers : list string) :
  Forall (λ s, String.length s = 6) numbers →
  ∃ g, build_graph numbers Graph_new = Some g ∧
       ∀ u, get_neighbors g u =
            mjoin (replicate (length (filter (λ x, x = u) numbers))
                     (filter (λ v, u ≠ v ∧ last2 u = first2 v) numbers)).
Proof.
  intros Hsix.
  destruct (build_graph_total numbers Graph_new Hsix) as [g Hg].
  exists g. split; [done|]. intros u.
  rewrite (built_neighbors _ _ Hg), out_edges_replicate.
  destruct (decide (u ∈ numbers)) as [Hu|Hu].
  - rewrite Forall_forall in Hsix. rewrite suffix_key_six by auto.
    reflexivity.
  - destruct (filter (λ x, x = u) numbers) as [|x l] eqn:E; [done|].
    assert (Hx : x ∈ filter (λ x, x = u) numbers) by (rewrite E; left).
    apply list_elem_of_filter in Hx as [-> Hx]. done.
Qed.

Lemma neighbors_in_input_order_witness :
  Forall (λ s, String.length s = 6) repeated_input ∧
  ∃ g, build_graph repeated_input Graph_new = Some g ∧
       ∀ u, get_neighbors g u =
            mjoin (replicate (length (filter (λ x, x = u) repeated_input))
                     (filter (λ v, u ≠ v ∧ last2 u = first2 v) repeated_input)).
Proof.
  assert (H : Forall (λ s, String.length s = 6) repeated_input)
    by (repeat constructor).
  split; [exact H|exact (neighbors_in_input_order repeated_input H)].
Defined.

(** What [get_vertices] returns: on six-character codes, under every order
    of the table, each input code that overlaps some other input code,
    once; a code that overlaps no other code is not returned. *)
Theorem vertices_are_sources (numbers : list string) :
  Forall (λ s, String.length s = 6) numbers →
  ∃ g, build_graph numbers Graph_new = Some g ∧
       ∀ vs, vertex_order g vs →
             NoDup vs ∧
             ∀ v, v ∈ vs ↔
                  v ∈ numbers ∧
                  ∃ w, w ∈ numbers ∧ v ≠ w ∧ last2 v = first2 w.
Proof.
  intros Hsix.
  destruct (build_graph_total numbers Graph_new Hsix) as [g Hg].
  exists g. split; [done|]. intros vs Hvs. unfold vertex_order in Hvs.
  split; [rewrite Hvs; apply get_vertices_NoDup|].
  intros v. rewrite Hvs, (built_vertices _ _ Hg).
  rewrite Forall_forall in Hsix. split.
  - intros (w & (Hv & Hw & Hne & Hk)%(built_edge _ _ Hg)).
    rewrite suffix_key_six in Hk by auto. injection Hk as Hk.
    split; [done|]. by exists w.
  - intros (Hv & w & Hw & Hne & Hk). exists w.
    apply (built_edge _ _ Hg). rewrite suffix_key_six by auto.
    by rewrite Hk.
Qed.

Lemma vertices_are_sources_witness :
  Forall (λ s, String.length s = 6) fork_input ∧
  ∃ g, build_graph fork_input Graph_new = Some g ∧
       ∀ vs, vertex_order g vs →
             NoDup vs ∧
             ∀ v, v ∈ vs ↔
                  v ∈ fork_input ∧
                  ∃ w, w ∈ fork_input ∧ v ≠ w ∧ last2 v = first2 w.
Proof.
  assert (H : Forall (λ s, String.length s = 6) fork_input)
    by (repeat constructor).
  split; [exact H|exact (vertices_are_sources fork_input H)].
Defined.

(** ** The text of print_path *)

Lemma append_cons c (a b : string) : String c a +:+ b = String c (a +:+ b).
Proof. reflexivity. Qed.

Lemma length_append (a b : string) :
  String.length (a +:+ b) = String.length a + String.length b.
Proof.
  induction a as [|c a IH]; [done|].
  rewrite append_cons. simpl. by rewrite IH.
Qed.

Lemma substring_append_skip (a b : string) n m :
  String.substring (String.length a + n) m (a +:+ b) = String.substring n m b.
Proof. induction a as [|c a IH]; [done|]. by rewrite append_cons. Qed.

Lemma substring_append_keep (a b : string) m :
  String.substring 0 (String.length a + m) (a +:+ b) =
  a +:+ String.substring 0 m b.
Proof.
  induction a as [|c a IH]; [done|].
  rewrite !append_cons. simpl. by rewrite IH.
Qed.

Lemma substring_append_inside (a b : string) n m :
  n + m ≤ String.length a →
  String.substring n m (a +:+ b) = String.substring n m a.
Proof.
  revert n m. induction a as [|c a IH]; intros n m Hle.
  - simpl in Hle. assert (n = 0) as -> by lia. assert (m = 0) as -> by lia.
    by destruct b.
  - rewrite append_cons. destruct n as [|n]; simpl.
    + destruct m as [|m]; [done|]. f_equal. apply IH. simpl in Hle. lia.
    + apply IH. simpl in Hle. lia.
Qed.

Lemma first4_length v : String.length v = 6 → String.length (first4 v) = 4.
Proof.
  destruct v as [|c1 [|c2 [|c3 [|c4 [|c5 [|c6 [|c7 v]]]]]]]; done.
Qed.

Lemma first4_first2 v (y : string) :
  String.length v = 6 → String.substring 0 2 (first4 v +:+ y) = first2 v.
Proof.
  destruct v as [|c1 [|c2 [|c3 [|c4 [|c5 [|c6 [|c7 v]]]]]]]; done.
Qed.

Lemma substring_six v : String.length v = 6 → String.substring 0 6 v = v.
Proof.
  destruct v as [|c1 [|c2 [|c3 [|c4 [|c5 [|c6 [|c7 v]]]]]]]; done.
Qed.

Lemma reconstruction_cons v rest :
  rest ≠ [] → reconstruction (v :: rest) = first4 v +:+ reconstruction rest.
Proof. by destruct rest. Qed.

Lemma reconstruction_head v rest :
  ∃ y, reconstruction (v :: rest) = first4 v +:+ y.
Proof. destruct rest; by eexists. Qed.

Lemma reconstruction_length path :
  path ≠ [] → Forall (λ s, String.length s = 6) path →
  String.length (reconstruction path) = 4 * length path + 2.
Proof.
  induction path as [|v [|w rest] IH]; intros Hne Hsix; [done| |].
  - apply Forall_cons in Hsix as [Hv _].
    destruct (six_parts v Hv) as (_ & _ & _ & _ & _ & Hfull).
    cbn [reconstruction]. by rewrite Hfull, Hv.
  - apply Forall_cons in Hsix as [Hv Hsix].
    rewrite reconstruction_cons, length_append, first4_length, IH by done.
    cbn [length]. lia.
Qed.

Lemma reconstruction_lookup path i v :
  Forall (λ s, String.length s = 6) path → overlaps path →
  path !! i = Some v →
  String.substring (4 * i) 6 (reconstruction path) = v.
Proof.
  revert i. induction path as [|a [|b t] IH]; intros i Hsix Hov Hi; [done| |].
  - apply Forall_cons in Hsix as [Ha _].
    destruct i as [|i]; [|done]. injection Hi as <-.
    destruct (six_parts a Ha) as (_ & _ & _ & _ & _ & Hfull).
    cbn [reconstruction]. rewrite Hfull. by apply substring_six.
  - apply Forall_cons in Hsix as [Ha Hsix].
    pose proof Hsix as [Hb _]%Forall_cons.
    rewrite reconstruction_cons by done.
    destruct i as [|i].
    + injection Hi as <-.
      replace 6 with (String.length (first4 a) + 2)
        by (by rewrite first4_length).
      change (4 * 0) with 0. rewrite substring_append_keep.
      destruct (reconstruction_head b t) as [y ->].
      rewrite first4_first2 by done.
      rewrite <- (Hov 0 a b) by done. by apply six_parts.
    + replace (4 * S i) with (String.length (first4 a) + 4 * i)
        by (rewrite first4_length by done; lia).
      rewrite substring_append_skip. apply IH; [done| |done].
      intros j x y Hx Hy. by apply (Hov (S j)).
Qed.

(** The text for a path of six-character codes (the content of C8, kept
    apart for the results below). *)
Lemma print_path_six path :
  path ≠ [] → Forall (λ s, String.length s = 6) path →
  print_path path = Some (reconstruction path +:+ endl).
Proof.
  intros Hne Hsix. destruct path as [|v0 rest]; [done|].
  pose proof Hsix as Hall. apply Forall_cons in Hsix as [Hv0 Hrest].
  destruct (six_parts v0 Hv0) as (H4 & _).
  unfold print_path. rewrite H4. simpl mbind.
  rewrite Nat.sub_0_r.
  pose proof (print_loop [v0] rest (first4 v0) Hrest) as Hloop.
  change (for_each (print_body (v0 :: rest)) (seq 1 (length rest))
            (first4 v0) = Some (first4 v0 +:+ heads rest)) in Hloop.
  rewrite Hloop. simpl mbind.
  destruct (last (v0 :: rest)) as [vk|] eqn:Hl; [|by apply last_None in Hl].
  simpl mbind.
  assert (Hvk : String.length vk = 6).
  { rewrite Forall_forall in Hall. apply Hall.
    apply last_Some in Hl as [l' ->]. apply elem_of_app. right. left. }
  destruct (six_parts vk Hvk) as (_ & _ & _ & -> & _). simpl mbind.
  by rewrite (reconstruction_heads v0 rest vk Hl).
Qed.

(** The printed text loses nothing: for a path of six-character codes that
    overlap one after the other, the text has four characters for each
    code, two more and the line end, and the code of index [i] is read
    back from the six characters at offset [4 * i]. *)
Theorem printed_codes_recoverable (path : list string) (out : string) :
  Forall (λ s, String.length s = 6) path → overlaps path →
  print_path path = Some out → path ≠ [] →
  String.length out = 4 * length path + 3 ∧
  ∀ i v, path !! i = Some v → String.substring (4 * i) 6 out = v.
Proof.
  intros Hsix Hov Hout Hne.
  rewrite print_path_six in Hout by done. injection Hout as <-.
  pose proof (reconstruction_length path Hne Hsix) as Hlen.
  split.
  - rewrite length_append, Hlen. simpl. lia.
  - intros i v Hi. rewrite substring_append_inside.
    + by apply reconstruction_lookup.
    + apply lookup_lt_Some in Hi. lia.
Qed.

Lemma printed_codes_recoverable_witness :
  Forall (λ s, String.length s = 6) ["123456"; "567890"] ∧
  overlaps ["123456"; "567890"] ∧
  print_path ["123456"; "567890"] = Some ("1234567890" +:+ endl) ∧
  ["123456"; "567890"] ≠ [] ∧
  String.length ("1234567890" +:+ endl) = 4 * 2 + 3 ∧
  ∀ i v, ["123456"; "567890"] !! i = Some v →
         String.substring (4 * i) 6 ("1234567890" +:+ endl) = v.
Proof.
  assert (H1 : Forall (λ s, String.length s = 6) ["123456"; "567890"])
    by (repeat constructor).
  assert (H2 : overlaps ["123456"; "567890"]).
  { intros [|[|i]] a b Ha Hb; simpl in Ha, Hb; by simplify_eq. }
  assert (H3 : print_path ["123456"; "567890"] = Some ("1234567890" +:+ endl))
    by reflexivity.
  assert (H4 : ["123456"; "567890"] ≠ []) by discriminate.
  split_and!; [exact H1|exact H2|exact H3|exact H4|
    apply (printed_codes_recoverable _ _ H1 H2 H3 H4)..].
Defined.

Lemma substr_None s pos len :
  substr s pos len = None ↔ (size s < pos)%Z.
Proof.
  unfold substr. destruct (Z.leb_spec pos (size s)); split; try done; lia.
Qed.

Lemma print_body_None pre v rest out :
  print_body (pre ++ v :: rest) (length pre) out = None ↔
  String.length v < 2.
Proof.
  unfold print_body. rewrite list_lookup_middle by done. simpl.
  rewrite substr_prefix by lia. simpl.
  destruct (substr v 2 2) as [b|] eqn:Hb; simpl.
  - split; [done|]. intros Hlt.
    assert (substr v 2 2 = None) as Hn by (apply substr_None; unfold size; lia).
    congruence.
  - apply substr_None in Hb. unfold size in Hb. split; [lia|done].
Qed.

Lemma print_loop_None pre rest out :
  for_each (print_body (pre ++ rest)) (seq (length pre) (length rest)) out
    = None ↔
  Exists (λ v, String.length v < 2) rest.
Proof.
  revert pre out. induction rest as [|v rest IH]; intros pre out.
  - split; [done|by intros ?%Exists_nil].
  - cbn [length seq]. rewrite for_each_cons, Exists_cons.
    rewrite <- (print_body_None pre v rest out).
    destruct (print_body (pre ++ v :: rest) (length pre) out) as [out'|];
      simpl; [|by split; auto].
    replace (pre ++ v :: rest) with ((pre ++ [v]) ++ rest)
      by (by rewrite <- app_assoc).
    replace (S (length pre)) with (length (pre ++ [v]))
      by (rewrite length_app; simpl; lia).
    rewrite IH. split; [by right|by intros [?|?]].
Qed.

(** The exceptions of [print_path]: it throws exactly when the path is not
    empty and a code after the first has fewer than two characters or the
    last code has fewer than four; the length of the first code never
    matters unless it is also the last. *)
Theorem print_path_throws_iff (path : list string) :
  print_path path = None ↔
  ∃ v0 rest, path = v0 :: rest ∧
    (Exists (λ v, String.length v < 2) rest ∨
     ∃ vk, last path = Some vk ∧ String.length vk < 4).
Proof.
  destruct path as [|v0 rest].
  { split; [done|]. by intros (? & ? & ? & _). }
  unfold print_path. rewrite substr_prefix by lia. simpl mbind.
  rewrite Nat.sub_0_r.
  pose proof (print_loop_None [v0] rest (String.substring 0 (Z.to_nat 4) v0))
    as Hloop.
  change (for_each (print_body (v0 :: rest)) (seq 1 (length rest))
            (String.substring 0 (Z.to_nat 4) v0) = None ↔
          Exists (λ v, String.length v < 2) rest) in Hloop.
  destruct (for_each (print_body (v0 :: rest)) (seq 1 (length rest)) _)
    as [out|]; simpl mbind.
  - destruct (last (v0 :: rest)) as [vk|] eqn:Hl; [|by apply last_None in Hl].
    simpl mbind. destruct (substr vk 4 2) as [t|] eqn:Ht; simpl mbind.
    + split; [done|].
      intros (v0' & rest' & [= <- <-] & [He|(vk' & Hl' & Hlt)]).
      * apply Hloop in He. done.
      * injection Hl' as <-.
        assert (substr vk 4 2 = None) as Hn
          by (apply substr_None; unfold size; lia).
        congruence.
    + apply substr_None in Ht. unfold size in Ht. split; [|done].
      intros _. exists v0, rest. split; [done|]. right. exists vk.
      split; [done|lia].
  - split; [|done]. intros _. exists v0, rest. split; [done|]. left.
    by apply Hloop.
Qed.

(** ** From the file to the printed lines *)

Lemma read_numbers_filter tokens :
  read_numbers tokens = filter (λ s, valid_num s = true) tokens.
Proof.
  unfold read_numbers.
  assert (H : ∀ acc,
            foldl (λ numbers temp,
                     if valid_num temp then numbers ++ [temp] else numbers)
                  acc tokens
            = acc ++ filter (λ s, valid_num s = true) tokens).
  { induction tokens as [|t tokens IH]; intros acc; simpl.
    - by rewrite app_nil_r.
    - rewrite IH, filter_cons. destruct (valid_num t) eqn:Ht.
      + rewrite decide_True by done. by rewrite <- app_assoc.
      + rewrite decide_False by done. done. }
  apply (H []).
Qed.

(** The processing part of [main] raises no exception: whatever words the
    file holds, the codes kept by the reading loop are the valid words in
    file order, [build_graph] returns on them, the search returns under
    every order of the keys, and every path of its result is printed, as
    its reconstruction and a line end. *)
Theorem file_to_lines_safe (tokens : list string) :
  read_numbers tokens = filter (λ s, valid_num s = true) tokens ∧
  ∃ g, build_graph (read_numbers tokens) Graph_new = Some g ∧
       ∀ vs, vertex_order g vs →
         ∃ fuel lp,
           find_longest_paths fuel vs g LongestPath_new = Some lp ∧
           ∀ p, p ∈ get_all_longest_paths lp →
                print_path p = Some (reconstruction p +:+ endl).
Proof.
  split; [apply read_numbers_filter|].
  assert (Hvalid : Forall (λ s, valid_num s = true) (read_numbers tokens)).
  { rewrite read_numbers_filter. apply Forall_forall.
    by intros s [? _]%list_elem_of_filter. }
  destruct (build_graph_total (read_numbers tokens) Graph_new) as [g Hg].
  { eapply Forall_impl; [exact Hvalid|]. apply valid_num_six. }
  exists g. split; [done|].
  apply (searched_every_order g
           (λ lp, ∀ p, p ∈ get_all_longest_paths lp →
                       print_path p = Some (reconstruction p +:+ endl))).
  intros lp Hs p Hp.
  apply (searched_content _ g Hvalid Hg lp p Hs) in Hp as [Hp _].
  apply print_path_six.
  - by destruct Hp as (v & q & -> & _).
  - apply Forall_forall. intros x Hx.
    apply (numbers_six _ Hvalid). by apply (rooted_in_numbers _ g Hvalid Hg p).
Qed.

(** ** get_validated_choice *)

Lemma toupper_choice c :
  is_choice (toupper c) = true →
  (toupper c = "Y" ∨ toupper c = "N")%char ∧ isspace c = false.
Proof.
  destruct c as [[|] [|] [|] [|] [|] [|] [|] [|]];
    vm_compute; intros H; try discriminate H; auto.
Qed.

(** [get_validated_choice] returns an upper-case [Y] or [N] and nothing
    else, so the tests [== 'N'] of [main] also see a lower-case answer. *)
Theorem choice_is_Y_or_N (fuel : nat) (prompt : string) (io io' : console)
    (c : ascii) :
  get_validated_choice fuel prompt io = Some (c, io') →
  (c = "Y" ∨ c = "N")%char.
Proof.
  revert io. induction fuel as [|fuel IH]; intros io; [done|]. simpl.
  destruct (extract_char (cin io)) as [[x rest]|]; [|done].
  destruct (is_choice (toupper x)) eqn:Hx; [|apply IH].
  intros [= <- _]. by apply toupper_choice.
Qed.

Lemma choice_is_Y_or_N_witness :
  get_validated_choice 2 "? " (mkConsole ["x"; " "; "n"; "o"]%char EmptyString)
    = Some ("N"%char,
            mkConsole ["o"%char] ("? " +:+ invalid_input +:+ "? ")) ∧
  ("N" = "Y" ∨ "N" = "N")%char.
Proof.
  assert (H : get_validated_choice 2 "? "
                (mkConsole ["x"; " "; "n"; "o"]%char EmptyString)
              = Some ("N"%char,
                      mkConsole ["o"%char] ("? " +:+ invalid_input +:+ "? ")))
    by reflexivity.
  split; [exact H|exact (choice_is_Y_or_N _ _ _ _ _ H)].
Defined.

Lemma get_validated_choice_space fuel prompt c input out :
  isspace c = true →
  get_validated_choice fuel prompt (mkConsole (c :: input) out) =
  get_validated_choice fuel prompt (mkConsole input out).
Proof. intros Hc. destruct fuel as [|fuel]; [done|]. simpl. by rewrite Hc. Qed.

(** What [get_validated_choice] reads and writes: when [c] is the first
    character of the stream that is a [y] or an [n] in either case, the
    call returns [c] in upper case and leaves the stream just after it;
    it has written the prompt once, and once more with the complaint
    before it for every character other than white space that came
    before [c]. *)
Theorem choice_takes_first_answer (prompt : string) (skipped : list ascii)
    (c : ascii) (rest : list ascii) (out : string) (fuel : nat) :
  Forall (λ x, is_choice (toupper x) = false) skipped →
  is_choice (toupper c) = true →
  length (filter (λ x, isspace x = false) skipped) < fuel →
  get_validated_choice fuel prompt (mkConsole (skipped ++ c :: rest) out) =
  Some (toupper c,
        mkConsole rest
          ((out +:+ prompt) +:+
           times (length (filter (λ x, isspace x = false) skipped))
                 (invalid_input +:+ prompt))).
Proof.
  intros Hsk Hc. revert out fuel.
  induction Hsk as [|x skipped Hx Hsk IH]; intros out fuel Hfuel.
  - destruct fuel as [|fuel]; [simpl in Hfuel; lia|]. simpl.
    destruct (toupper_choice c Hc) as [_ ->]. rewrite Hc.
    by rewrite append_empty_r.
  - rewrite filter_cons in *. destruct (isspace x) eqn:Hsp.
    + rewrite decide_False in * by done.
      change ((x :: skipped) ++ c :: rest) with (x :: (skipped ++ c :: rest)).
      rewrite get_validated_choice_space by done. by apply IH.
    + rewrite decide_True in * by done.
      destruct fuel as [|fuel]; [lia|]. cbn [length] in Hfuel.
      cbn [get_validated_choice cin cout app extract_char].
      rewrite Hsp, Hx. rewrite IH by lia.
      cbn [length times]. by rewrite !append_assoc.
Qed.

Lemma choice_takes_first_answer_witness :
  Forall (λ x, is_choice (toupper x) = false) ["x"; " "]%char ∧
  is_choice (toupper "n") = true ∧
  length (filter (λ x, isspace x = false) ["x"; " "]%char) < 2 ∧
  get_validated_choice 2 "? " (mkConsole ["x"; " "; "n"; "o"]%char EmptyString)
  = Some ("N"%char,
          mkConsole ["o"%char]
            ((EmptyString +:+ "? ") +:+
             times (length (filter (λ x, isspace x = false) ["x"; " "]%char))
                   (invalid_input +:+ "? "))).
Proof.
  assert (H1 : Forall (λ x, is_choice (toupper x) = false) ["x"; " "]%char)
    by (repeat constructor).
  assert (H2 : is_choice (toupper "n") = true) by reflexivity.
  assert (H3 : length (filter (λ x, isspace x = false) ["x"; " "]%char) < 2)
    by (vm_compute; lia).
  split_and!; [exact H1|exact H2|exact H3|].
  exact (choice_takes_first_answer "? " _ "n" ["o"%char] EmptyString 2 H1 H2 H3).
Defined.

(** ** build_graph on a graph that is not new *)

(** [build_graph] only appends: called a second time with the same codes
    on the graph it built, it returns again and every neighbour list is
    then the first list written twice. *)
Theorem build_graph_twice (numbers : list string) (g : Graph) :
  build_graph numbers Graph_new = Some g →
  ∃ g2, build_graph numbers g = Some g2 ∧
        ∀ u, get_neighbors g2 u = get_neighbors g u ++ get_neighbors g u.
Proof.
  intros Hg.
  destruct (build_graph numbers g) as [g2|] eqn:Hg2.
  - exists g2. split; [done|]. intros u.
    destruct (build_outer_loop _ _ _ _ Hg2) as [_ ->].
    by rewrite (built_neighbors _ _ Hg).
  - unfold build_graph in Hg, Hg2.
    apply (build_outer_loop_None numbers numbers g) in Hg2.
    apply (build_outer_loop_None numbers numbers Graph_new) in Hg2.
    congruence.
Qed.

Lemma build_graph_twice_witness :
  build_graph fork_input Graph_new = Some fork_graph ∧
  ∃ g2, build_graph fork_input fork_graph = Some g2 ∧
        ∀ u, get_neighbors g2 u =
             get_neighbors fork_graph u ++ get_neighbors fork_graph u.
Proof.
  assert (H : build_graph fork_input Graph_new = Some fork_graph)
    by (vm_compute; reflexivity).
  split; [exact H|exact (build_graph_twice fork_input fork_graph H)].
Defined.
